(** * yuque-dl: the resumable download loop of [src/index.ts]

    A shallow embedding of [fixPath] and of the traversal performed by
    [main], together with the properties of the traversal that the
    specification states. *)

From Stdlib Require Import NArith Ascii String DecimalString.
From stdpp Require Import base option list gmap.

Local Open Scope N_scope.

(** ** JavaScript strings

    A JavaScript string is a sequence of UTF-16 code units.  The regular
    expressions of [index.ts] carry no [u] flag, so they match code unit
    by code unit, and every character they name lies in the basic
    multilingual plane. *)

Abbreviation jsstring := (list N).

(** [js] reads an ASCII literal as a JavaScript string. *)
Definition js (s : string) : jsstring :=
  map N_of_ascii (list_ascii_of_string s).

(** [Array.prototype.join] on an array of strings. *)
Fixpoint join (sep : jsstring) (l : list jsstring) : jsstring :=
  match l with
  | [] => []
  | [x] => x
  | x :: rest => x ++ sep ++ join sep rest
  end.

(** Truthiness of a string: every string but the empty one. *)
Definition truthy (s : jsstring) : bool :=
  match s with [] => false | _ :: _ => true end.

(** ** [fixPath] *)

(** The character class of [dirNameReg]: backslash, slash, colon,
    asterisk, question mark, double quote, the two angle brackets, pipe,
    line feed and carriage return. *)
Definition dirNameReg (c : N) : bool :=
  (c =? 92) || (c =? 47) || (c =? 58) || (c =? 42) || (c =? 63) ||
  (c =? 34) || (c =? 60) || (c =? 62) || (c =? 124) || (c =? 10) ||
  (c =? 13).

(** The class [\s] of ECMAScript: WhiteSpace and LineTerminator. *)
Definition whitespace (c : N) : bool :=
  (c =? 9) || (c =? 10) || (c =? 11) || (c =? 12) || (c =? 13) ||
  (c =? 32) || (c =? 160) || (c =? 5760) ||
  ((8192 <=? c) && (c <=? 8202)) ||
  (c =? 8232) || (c =? 8233) || (c =? 8239) || (c =? 8287) ||
  (c =? 12288) || (c =? 65279).

(** [s.replace(dirNameReg, '_')] with the [g] flag: every match. *)
Definition replaceIllegal (s : jsstring) : jsstring :=
  map (fun c => if dirNameReg c then 95 else c) s.

(** [s.replace(/\s/, '')] without the [g] flag: the first match only. *)
Fixpoint removeFirstSpace (s : jsstring) : jsstring :=
  match s with
  | [] => []
  | c :: rest => if whitespace c then rest else c :: removeFirstSpace rest
  end.

Definition fixPath (dirPath : jsstring) : jsstring :=
  if negb (truthy dirPath) then []
  else removeFirstSpace (replaceIllegal dirPath).

(** [String.prototype.toLocaleLowerCase] in the root locale.  The source
    only compares its result with the ASCII literals ['title'] and
    ['link'].  The code units that lowercase to ASCII ones are the
    letters A to Z and the Kelvin sign (to k); the dotted capital I
    lowercases to i followed by a combining dot.  Every other code unit
    lowercases to non-ASCII units and is kept as it is here. *)
Definition lowerUnit (c : N) : jsstring :=
  if (65 <=? c) && (c <=? 90) then [c + 32]
  else if c =? 8490 then [107]
  else if c =? 304 then [105; 775]
  else [c].

Definition toLocaleLowerCase (s : jsstring) : jsstring :=
  flat_map lowerUnit s.

(** ** Numbers in strings

    [String(n)] and a template literal print a Number by
    [Number::toString]: the shortest digits that read back as the same
    Number, written in full when the number has at most 21 digits and
    with an exponent from there on.  Book ids and status codes are
    natural numbers. *)

Definition decimal (n : N) : jsstring :=
  js (NilZero.string_of_uint (N.to_uint n)).

(** The Number nearest to [n]: a Number carries 53 significant bits, and
    a tie goes to the even significand.  [JSON.parse] reads an integer
    so. *)
Definition nearestNumber (n : N) : N :=
  let shift := N.size n - 53 in
  let q := N.shiftr n shift in
  let r := N.land n (N.ones shift) in
  let half := N.shiftl 1 (shift - 1) in
  if shift =? 0 then n
  else N.shiftl (if (half <? r) || ((r =? half) && N.odd q) then q + 1 else q)
                shift.

(** The digits of [v] cut at the unit [m], a power of ten: the multiple
    of [m] below [v] and the one above it.  The one that reads back as
    [v] is taken; of two, the nearer to [v], and on a tie the one whose
    last digit is even. *)
Definition shortestAt (v m : N) : option N :=
  let lo := v / m * m in
  let hi := lo + m in
  let okLo := nearestNumber lo =? v in
  let okHi := nearestNumber hi =? v in
  if okLo && okHi then
    Some (if v - lo <? hi - v then lo
          else if hi - v <? v - lo then hi
          else if N.even (lo / m) then lo else hi)
  else if okLo then Some lo
  else if okHi then Some hi
  else None.

(** The number with the fewest significant digits that reads back as
    [v]: one digit is tried first, then two, and so on up to the
    [digits] of [v] itself. *)
Fixpoint shortest (digits : nat) (v : N) : N :=
  match digits with
  | O => v
  | S d =>
      match shortestAt v (10 ^ N.of_nat d) with
      | Some c => c
      | None => shortest d v
      end
  end.

Fixpoint dropZeros (s : jsstring) : jsstring :=
  match s with
  | 48 :: rest => dropZeros rest
  | _ => s
  end.

(** The digits without the zeros at the end. *)
Definition significant (digits : jsstring) : jsstring :=
  reverse (dropZeros (reverse digits)).

(** The digits in full up to 21 of them; from 22 on the first digit, the
    other significant digits after a dot if there are any, and the
    exponent. *)
Definition printNumber (c : N) : jsstring :=
  let digits := decimal c in
  if Nat.leb (length digits) 21 then digits
  else
    match significant digits with
    | [] => digits
    | [d] => [d] ++ js "e+" ++ decimal (N.of_nat (length digits - 1))
    | d :: rest =>
        [d] ++ js "." ++ rest ++ js "e+" ++
        decimal (N.of_nat (length digits - 1))
    end.

(** [String(n)].  Below 2^53 every natural number is a Number and
    prints as its decimal digits; from 2^1024 on the nearest Number is
    [Infinity]. *)
Definition numberToString (n : N) : jsstring :=
  if n <? 2 ^ 53 then decimal n
  else
    let v := nearestNumber n in
    if 2 ^ 1024 <=? v then js "Infinity"
    else printNumber (shortest (length (decimal v)) v).

(** ** Data *)

(** [KnowledgeBase.Toc].  The loop tests [typeof item.type], so the field
    is [Some s] for a string and [None] for any other value.  It tests
    [item.child_uuid !== ''], so that field is [Some s] for a string and
    [None] when it is missing or holds any other value.  The other
    fields are the strings that the type declares. *)
Record Toc := {
  type : option jsstring;
  uuid : jsstring;
  parent_uuid : jsstring;
  child_uuid : option jsstring;
  title : jsstring;
  url : jsstring
}.

Record IProgressItem := {
  path : jsstring;
  pathTitleList : list jsstring;
  pathIdList : list jsstring;
  toc : Toc
}.

Record IKnowledgeBaseInfo := {
  bookId : option N;
  bookSlug : option jsstring;
  tocList : option (list Toc);
  bookName : option jsstring;
  bookDesc : option jsstring
}.

(** [IDownloadArticleParams]; the fields carry the prefix [dl_] because
    [uuid] and [bookId] already name fields above. *)
Record IDownloadArticleParams := {
  dl_bookId : N;
  dl_itemUrl : jsstring;
  dl_savePath : jsstring;
  dl_saveFilePath : jsstring;
  dl_uuid : jsstring;
  dl_articleTitle : jsstring;
  dl_articleUrl : jsstring;
  dl_ignoreImg : bool
}.

Record IOptions := {
  distDir : jsstring;
  ignoreImg : bool
}.

(** An element of [errArticleInfo] (its [err] field, the error object,
    carries nothing beyond [errMsg]). *)
Record ErrInfo := {
  articleUrl : jsstring;
  errItem : IProgressItem;
  errMsg : jsstring
}.

Abbreviation UuidMap := (gmap jsstring IProgressItem).

(** The fields of the [ProgressBar] object that [main] reads once
    [init()] has resolved. *)
Record ProgressBar := {
  curr : nat;
  isDownloadInterrupted : bool;
  progressInfo : list IProgressItem;
  bar : bool
}.

(** ** Effects

    Every awaited call on the outside world is an event.  The trace of a
    run is the list of the calls it issued, oldest first. *)

Inductive LogLine :=
| LogDone (bookPath : jsstring)
| LogLinkHeader
| LogLinkItem (itemPath itemUrl : jsstring)
| LogErrCount (total failed : nat)
| LogErrItem (itemPath itemUrl : jsstring)
| LogErrMsg (msg : jsstring)
| LogErrHint
| LogSummary (bookPath : jsstring).

Inductive Event :=
| Mkdir (dir : jsstring)
| ProgressInit (bookPath : jsstring) (total : nat)
| BarStop
| DownloadArticle (params : IDownloadArticleParams)
| UpdateProgress (item : IProgressItem) (isSuccess : bool)
| GenFile (bookPath : jsstring) (name desc : option jsstring) (index : UuidMap)
| Log (line : LogLine).

(** The outside world answers a call, given the calls made so far:
    [None] when the promise resolves, [Some msg] when it rejects with an
    [Error] whose message is [msg]. *)
Definition World := list Event -> Event -> option jsstring.

Inductive result (A : Type) :=
| Return (a : A)
| Throw (msg : jsstring)
| Diverge.
Arguments Return {A} a.
Arguments Throw {A} msg.
Arguments Diverge {A}.

(** A computation reads the calls made before it (the history), and
    yields the calls it makes itself together with its result: it
    returns, throws, or runs out of fuel inside a [while] loop. *)
Definition M (A : Type) := list Event -> list Event * result A.

Definition ret {A} (a : A) : M A := fun _ => ([], Return a).

Definition bind {A B} (m : M A) (k : A -> M B) : M B :=
  fun h =>
    match m h with
    | (evs, Return a) =>
        let (evs', r) := k a (h ++ evs) in (evs ++ evs', r)
    | (evs, Throw msg) => (evs, Throw msg)
    | (evs, Diverge) => (evs, Diverge)
    end.

Notation "'let*' x ':=' m 'in' k" := (bind m (fun x => k))
  (at level 10, x name, m at level 100, k at level 200).
Notation "'run' m 'then' k" := (bind m (fun _ => k))
  (at level 10, m at level 100, k at level 200).

Definition throw {A} (msg : jsstring) : M A := fun _ => ([], Throw msg).
Definition diverge {A} : M A := fun _ => ([], Diverge).

(** An expression that makes no call: its value, or what it throws. *)
Definition settle {A} (r : result A) : M A := fun _ => ([], r).

(** An awaited call: recorded, then resolved or rejected by the world. *)
Definition call (w : World) (ev : Event) : M unit :=
  fun h =>
    ([ev],
     match w h ev with
     | None => Return tt
     | Some msg => Throw msg
     end).

(** Calls that cannot fail ([logger], [bar.stop()]). *)
Definition emitAll (evs : list Event) : M unit := fun _ => (evs, Return tt).
Definition emit (ev : Event) : M unit := emitAll [ev].

(** A [try]/[catch] around one call: the error message, if any. *)
Definition try_call (w : World) (ev : Event) : M (option jsstring) :=
  fun h => ([ev], Return (w h ev)).

(** ** The traversal of [main] *)

(** The locals of [main] that the loop updates, with [progressBar.curr]. *)
Record LoopState := {
  uuidMap : UuidMap;
  errArticleCount : nat;
  totalArticleCount : nat;
  warnArticleCount : nat;
  errArticleInfo : list ErrInfo;
  warnArticleInfo : list IProgressItem;
  progressCurr : nat
}.

(** What the loop reads and never writes. *)
Record LoopEnv := {
  env_bookPath : jsstring;
  env_bookId : N;
  env_articleUrlPrefix : jsstring;
  env_ignoreImg : bool
}.

Definition slash : jsstring := js "/".

(** The [while (tempItem)] loop.  [unshift] is a cons at the front.
    [fuel] bounds the number of iterations; [None] is fuel exhausted. *)
Fixpoint ancestorWalk (fuel : nat) (m : UuidMap) (tempItem : Toc)
    (titles ids : list jsstring) : option (list jsstring * list jsstring) :=
  match fuel with
  | O => None
  | S fuel' =>
      let titles' := fixPath (title tempItem) :: titles in
      let ids' := uuid tempItem :: ids in
      match m !! parent_uuid tempItem with
      | Some parent => ancestorWalk fuel' m (toc parent) titles' ids'
      | None => Some (titles', ids')
      end
  end.

(** Modelled from the spec: [ProgressBar.updateProgress] is not among the
    sources.  The spec's [append(item, success)] is called once for each
    entry disposed of, must be durable, and increments the completed
    count; a failed append halts the run.  [advance] is that increment
    of [progressBar.curr]. *)
Definition advance (st : LoopState) : LoopState :=
  {| uuidMap := uuidMap st;
     errArticleCount := errArticleCount st;
     totalArticleCount := totalArticleCount st;
     warnArticleCount := warnArticleCount st;
     errArticleInfo := errArticleInfo st;
     warnArticleInfo := warnArticleInfo st;
     progressCurr := S (progressCurr st) |}.

(** [await progressBar.updateProgress(progressItem, isSuccess)]: the
    call, which the world may reject, then the increment. *)
Definition updateProgress (w : World) (item : IProgressItem)
    (isSuccess : bool) (st : LoopState) : M LoopState :=
  run call w (UpdateProgress item isSuccess) then
  ret (advance st).

(** [uuidMap.set(item.uuid, progressItem)]. *)
Definition register (item : Toc) (p : IProgressItem) (st : LoopState)
    : LoopState :=
  {| uuidMap := <[uuid item := p]> (uuidMap st);
     errArticleCount := errArticleCount st;
     totalArticleCount := totalArticleCount st;
     warnArticleCount := warnArticleCount st;
     errArticleInfo := errArticleInfo st;
     warnArticleInfo := warnArticleInfo st;
     progressCurr := progressCurr st |}.

(** [warnArticleCount += 1; warnArticleInfo.push(progressItem)]. *)
Definition recordWarning (p : IProgressItem) (st : LoopState) : LoopState :=
  {| uuidMap := uuidMap st;
     errArticleCount := errArticleCount st;
     totalArticleCount := totalArticleCount st;
     warnArticleCount := S (warnArticleCount st);
     errArticleInfo := errArticleInfo st;
     warnArticleInfo := warnArticleInfo st ++ [p];
     progressCurr := progressCurr st |}.

(** [totalArticleCount += 1]. *)
Definition countArticle (st : LoopState) : LoopState :=
  {| uuidMap := uuidMap st;
     errArticleCount := errArticleCount st;
     totalArticleCount := S (totalArticleCount st);
     warnArticleCount := warnArticleCount st;
     errArticleInfo := errArticleInfo st;
     warnArticleInfo := warnArticleInfo st;
     progressCurr := progressCurr st |}.

(** The [catch] block: [errArticleCount += 1; errArticleInfo.push(..)]. *)
Definition recordError (e : ErrInfo) (st : LoopState) : LoopState :=
  {| uuidMap := uuidMap st;
     errArticleCount := S (errArticleCount st);
     totalArticleCount := totalArticleCount st;
     warnArticleCount := warnArticleCount st;
     errArticleInfo := errArticleInfo st ++ [e];
     warnArticleInfo := warnArticleInfo st;
     progressCurr := progressCurr st |}.

Definition title_tag : jsstring := js "title".
Definition link_tag : jsstring := js "link".
Definition md_ext : jsstring := js ".md".

(** The test of the first branch, on the lowercased type:
    [itemType === 'title' || item['child_uuid'] !== '' ||
     itemType === 'link']. *)
Definition isContainer (itemType : jsstring) (item : Toc) : bool :=
  bool_decide (itemType = title_tag) ||
  negb (bool_decide (child_uuid item = Some [])) ||
  bool_decide (itemType = link_tag).

(** The progress item of the first branch, from the two lists of the
    ancestor walk. *)
Definition dirItem (item : Toc) (lists : list jsstring * list jsstring)
    : IProgressItem :=
  {| path := join slash (fst lists);
     pathTitleList := fst lists;
     pathIdList := snd lists;
     toc := item |}.

(** [preItem]: the parent's progress item, or the empty one. *)
Definition preItemOf (m : UuidMap) (item : Toc)
    : jsstring * (list jsstring * list jsstring) :=
  match m !! parent_uuid item with
  | Some parent => (path parent, (pathTitleList parent, pathIdList parent))
  | None => ([], ([], []))
  end.

(** The progress item of the second branch. *)
Definition articleItem (m : UuidMap) (item : Toc) : IProgressItem :=
  let pre := preItemOf m item in
  let titles := fst (snd pre) ++ [fixPath (title item) ++ md_ext] in
  {| path := join slash titles;
     pathTitleList := titles;
     pathIdList := snd (snd pre) ++ [uuid item];
     toc := item |}.

Definition articleUrlOf (env : LoopEnv) (item : Toc) : jsstring :=
  env_articleUrlPrefix env ++ slash ++ url item.

Definition articleParams (env : LoopEnv) (m : UuidMap) (item : Toc)
    : IDownloadArticleParams :=
  {| dl_bookId := env_bookId env;
     dl_itemUrl := url item;
     dl_savePath := env_bookPath env ++ slash ++ fst (preItemOf m item);
     dl_saveFilePath := env_bookPath env ++ slash ++ path (articleItem m item);
     dl_uuid := uuid item;
     dl_articleTitle := title item;
     dl_articleUrl := articleUrlOf env item;
     dl_ignoreImg := env_ignoreImg env |}.

(** The tests at the head of the loop body, in the order of the source:
    the [typeof] test, the lookup in [uuidMap], the test of the first
    branch on the lowercased type, and the test of [item.url]. *)
Inductive Classification :=
| NotString
| Indexed
| ContainerLike (itemType : jsstring)
| LeafArticle
| Nothing.

Definition classify (m : UuidMap) (item : Toc) : Classification :=
  match type item with
  | None => NotString
  | Some ty =>
      match m !! uuid item with
      | Some _ => Indexed
      | None =>
          let itemType := toLocaleLowerCase ty in
          if isContainer itemType item then ContainerLike itemType
          else if truthy (url item) then LeafArticle
          else Nothing
      end
  end.

(** The first branch: title, link, or entry with children. *)
Definition containerBranch (w : World) (fuel : nat) (env : LoopEnv)
    (st : LoopState) (item : Toc) (itemType : jsstring) : M LoopState :=
  match ancestorWalk fuel (uuidMap st) item [] [] with
  | None => diverge
  | Some lists =>
      let progressItem := dirItem item lists in
      let* st1 :=
        (if bool_decide (itemType = link_tag)
         then ret (recordWarning progressItem st)
         else
           run call w (Mkdir (env_bookPath env ++ slash ++
                              join slash (fst lists))) then
           ret st) in
      updateProgress w progressItem
        (negb (bool_decide (itemType = link_tag)))
        (register item progressItem st1)
  end.

(** The second branch.  Every path of [downloadArticle] returns [true]
    or throws an [Error]; the network and the disk decide which, so the
    call is answered by the world. *)
Definition articleBranch (w : World) (env : LoopEnv) (st : LoopState)
    (item : Toc) : M LoopState :=
  let st1 := countArticle st in
  let progressItem := articleItem (uuidMap st) item in
  let* failure :=
    try_call w (DownloadArticle (articleParams env (uuidMap st) item)) in
  let st2 :=
    match failure with
    | None => st1
    | Some msg =>
        recordError {| articleUrl := articleUrlOf env item;
                       errItem := progressItem;
                       errMsg := msg |} st1
    end in
  updateProgress w progressItem
    (match failure with None => true | Some _ => false end)
    (register item progressItem st2).

(** The body of the [for] loop. *)
Definition loopBody (w : World) (fuel : nat) (env : LoopEnv)
    (st : LoopState) (item : Toc) : M LoopState :=
  match classify (uuidMap st) item with
  | NotString | Indexed | Nothing => ret st
  | ContainerLike itemType => containerBranch w fuel env st item itemType
  | LeafArticle => articleBranch w env st item
  end.

(** [for (let i = 0; i < total; i++)] over [tocList]. *)
Fixpoint forLoop (w : World) (fuel : nat) (env : LoopEnv)
    (items : list Toc) (st : LoopState) : M LoopState :=
  match items with
  | [] => ret st
  | item :: rest =>
      let* st' := loopBody w fuel env st item in
      forLoop w fuel env rest st'
  end.

(** The replay of an interrupted download:
    [progressInfo.forEach(item => uuidMap.set(item.toc.uuid, item))]. *)
Definition loadIndex (pb : ProgressBar) : UuidMap :=
  if isDownloadInterrupted pb
  then foldl (fun m item => <[uuid (toc item) := item]> m) ∅ (progressInfo pb)
  else ∅.

Definition initialState (pb : ProgressBar) : LoopState :=
  {| uuidMap := loadIndex pb;
     errArticleCount := 0;
     totalArticleCount := 0;
     warnArticleCount := 0;
     errArticleInfo := [];
     warnArticleInfo := [];
     progressCurr := curr pb |}.

(** The two reports printed after the loop. *)
Definition linkReport (st : LoopState) : list Event :=
  if Nat.ltb 0 (warnArticleCount st)
  then Log LogLinkHeader ::
       map (fun p => Log (LogLinkItem (path p) (url (toc p))))
           (warnArticleInfo st)
  else [].

Definition errorReport (st : LoopState) : list Event :=
  if Nat.ltb 0 (errArticleCount st)
  then Log (LogErrCount (totalArticleCount st) (errArticleCount st)) ::
       flat_map (fun e => [Log (LogErrItem (path (errItem e)) (articleUrl e));
                           Log (LogErrMsg (errMsg e))])
                (errArticleInfo st) ++
       [Log LogErrHint]
  else [].

(** [bookName ? fixPath(bookName) : bookId], under [options.distDir]. *)
Definition bookPathOf (options : IOptions) (name : option jsstring)
    (id : N) : jsstring :=
  distDir options ++ slash ++
  match name with
  | Some (c :: n) => fixPath (c :: n)
  | _ => numberToString id
  end.

(** [main] from its third line on, once [bookId] and [tocList] have
    passed the two tests.  [articleUrlPrefix] is what
    [url.replace(new RegExp(..), '$1')] evaluates to between the replay
    of the progress and the loop: the prefix, or the error that
    [new RegExp] throws when the pattern made with the slug of the book
    is not one. *)
Definition mainAfterChecks (w : World) (fuel : nat) (options : IOptions)
    (info : IKnowledgeBaseInfo) (articleUrlPrefix : result jsstring)
    (pb : ProgressBar) (id : N) (tocs : list Toc) : M unit :=
  let bookPath := bookPathOf options (bookName info) id in
  run call w (Mkdir bookPath) then
  let total := length tocs in
  run call w (ProgressInit bookPath total) then
  if Nat.eqb (curr pb) total then
    run (if bar pb then emit BarStop else ret tt) then
    emit (Log (LogDone bookPath))
  else
    let* prefix := settle articleUrlPrefix in
    let env := {| env_bookPath := bookPath;
                  env_bookId := id;
                  env_articleUrlPrefix := prefix;
                  env_ignoreImg := ignoreImg options |} in
    let* st := forLoop w fuel env tocs (initialState pb) in
    run emitAll (linkReport st) then
    run emitAll (errorReport st) then
    run call w (GenFile bookPath (bookName info) (bookDesc info)
                        (uuidMap st)) then
    run emit (Log (LogSummary bookPath)) then
    if Nat.eqb (progressCurr st) total
    then emit (Log (LogDone bookPath))
    else ret tt.

(** [main], after [getKnowledgeBaseInfo(url)] has resolved to [info].
    [pb] is the progress bar as [init()] leaves it. *)
Definition main (w : World) (fuel : nat) (options : IOptions)
    (info : IKnowledgeBaseInfo) (articleUrlPrefix : result jsstring)
    (pb : ProgressBar) : M unit :=
  match bookId info with
  | None | Some 0 => throw (js "No found book id")
  | Some id =>
      match tocList info with
      | None | Some [] => throw (js "No found toc list")
      | Some tocs =>
          mainAfterChecks w fuel options info articleUrlPrefix pb id tocs
      end
  end.

(** ** Notions used in the statements *)

Local Open Scope nat_scope.

Definition noSpace (s : jsstring) : Prop :=
  Forall (fun c => whitespace c = false) s.

(** The state that the second branch leaves, given the answer of the
    world to the download. *)
Definition afterArticle (env : LoopEnv) (st : LoopState) (item : Toc)
    (failure : option jsstring) : LoopState :=
  let p := articleItem (uuidMap st) item in
  advance (register item p
    match failure with
    | None => countArticle st
    | Some msg =>
        recordError {| articleUrl := articleUrlOf env item;
                       errItem := p; errMsg := msg |} (countArticle st)
    end).

Definition succeeded (failure : option jsstring) : bool :=
  match failure with None => true | Some _ => false end.

(** The state that the first branch leaves. *)
Definition afterContainer (st : LoopState) (item : Toc)
    (itemType : jsstring) (lists : list jsstring * list jsstring)
    : LoopState :=
  let p := dirItem item lists in
  advance (register item p
    (if bool_decide (itemType = link_tag) then recordWarning p st else st)).

(** The index after a step that returns, whatever the world answered. *)
Definition nextIndex (fuel : nat) (m : UuidMap) (item : Toc) : UuidMap :=
  match classify m item with
  | ContainerLike _ =>
      match ancestorWalk fuel m item [] [] with
      | Some lists => <[uuid item := dirItem item lists]> m
      | None => m
      end
  | LeafArticle => <[uuid item := articleItem m item]> m
  | NotString | Indexed | Nothing => m
  end.

(** The entries that a terminating walk from [t] visits, outermost
    first: [t] alone when its parent is not in the index, else the chain
    of the parent's entry followed by [t]. *)
Inductive AncestorChain (m : UuidMap) : Toc -> list Toc -> Prop :=
| chain_root t :
    m !! parent_uuid t = None -> AncestorChain m t [t]
| chain_parent t p l :
    m !! parent_uuid t = Some p ->
    AncestorChain m (toc p) l ->
    AncestorChain m t (l ++ [t]).

Definition titlesOf (l : list Toc) : list jsstring :=
  map (fun t => fixPath (title t)) l.

(** The keys of the index are the uuids of the entries stored under
    them, and [rank] decreases from every key to the parent of its
    entry: the parent links of the index have no cycle. *)
Definition keyed (m : UuidMap) : Prop :=
  forall k p, m !! k = Some p -> uuid (toc p) = k.

Definition ranked (rank : jsstring -> nat) (m : UuidMap) : Prop :=
  forall k p, m !! k = Some p -> (rank (parent_uuid (toc p)) < rank k)%nat.

(** A progress item is well formed when its two lists have the same
    length, its uuid list ends with the uuid of its own entry, and its
    path is its titles joined by a slash. *)
Definition wellFormed (p : IProgressItem) : Prop :=
  length (pathTitleList p) = length (pathIdList p) /\
  last (pathIdList p) = Some (uuid (toc p)) /\
  path p = join slash (pathTitleList p).

Definition wellFormedIndex (m : UuidMap) : Prop :=
  map_Forall (fun _ p => wellFormed p) m.

(** The progress items handed to [updateProgress] by a list of calls. *)
Definition updatedItem (ev : Event) : option IProgressItem :=
  match ev with
  | UpdateProgress p _ => Some p
  | _ => None
  end.

Definition progressItems (evs : list Event) : list IProgressItem :=
  omap updatedItem evs.

(** The calls to the summary generator in a list of calls. *)
Definition genFileCall (ev : Event) : option Event :=
  match ev with
  | GenFile _ _ _ _ => Some ev
  | _ => None
  end.

Definition genFileCalls (evs : list Event) : list Event :=
  omap genFileCall evs.

(** The calls that the loop body can make. *)
Definition loopCall (ev : Event) : Prop :=
  match ev with
  | Mkdir _ | DownloadArticle _ | UpdateProgress _ _ => True
  | _ => False
  end.

Definition logCall (ev : Event) : Prop :=
  match ev with
  | Log _ => True
  | _ => False
  end.

(** The calls of [main] up to the loop. *)
Definition startCalls (options : IOptions) (info : IKnowledgeBaseInfo)
    (id : N) (tocs : list Toc) : list Event :=
  [Mkdir (bookPathOf options (bookName info) id);
   ProgressInit (bookPathOf options (bookName info) id) (length tocs)].

(** The environment in which [main] runs the loop. *)
Definition envOf (options : IOptions) (info : IKnowledgeBaseInfo)
    (articleUrlPrefix : jsstring) (id : N) : LoopEnv :=
  {| env_bookPath := bookPathOf options (bookName info) id;
     env_bookId := id;
     env_articleUrlPrefix := articleUrlPrefix;
     env_ignoreImg := ignoreImg options |}.

(** The two calls of [main] before its first test of the progress
    resolve. *)
Definition started (w : World) (options : IOptions)
    (info : IKnowledgeBaseInfo) (id : N) (tocs : list Toc) : Prop :=
  w [] (Mkdir (bookPathOf options (bookName info) id)) = None /\
  w [Mkdir (bookPathOf options (bookName info) id)]
    (ProgressInit (bookPathOf options (bookName info) id) (length tocs)) = None.

(** ** The disk *)

(** The directories named by a path: the path itself and every prefix of
    it that ends before a slash. *)
Fixpoint dirPrefixes (seen rest : jsstring) : list jsstring :=
  match rest with
  | [] => [seen]
  | c :: rest' =>
      (if (c =? 47)%N then [seen] else []) ++ dirPrefixes (seen ++ [c]) rest'
  end.

(** [mkdir(dir, {recursive: true})] on the set of directories that
    exist: nothing when [dir] exists, else [dir] and its ancestors. *)
Definition mkdirRecursive (dir : jsstring) (dirs : gset jsstring)
    : gset jsstring :=
  if decide (dir ∈ dirs) then dirs
  else dirs ∪ list_to_set (dirPrefixes [] dir).

(** The directories after a list of calls whose [mkdir] all resolved,
    as they do in a run that returns. *)
Fixpoint dirsAfter (dirs : gset jsstring) (evs : list Event)
    : gset jsstring :=
  match evs with
  | [] => dirs
  | Mkdir dir :: rest => dirsAfter (mkdirRecursive dir dirs) rest
  | _ :: rest => dirsAfter dirs rest
  end.

(** The calls of a list that write to the disk: the download of an
    article, the progress update, the summary, and [mkdir] of a
    directory that does not exist yet.  [init()] of the progress bar is
    not among the sources; as the [load] of the spec it inspects the
    progress kept on disk.  The log and the bar go to the terminal. *)
Fixpoint diskWrites (dirs : gset jsstring) (evs : list Event) : list Event :=
  match evs with
  | [] => []
  | Mkdir dir :: rest =>
      if decide (dir ∈ dirs) then diskWrites dirs rest
      else Mkdir dir :: diskWrites (mkdirRecursive dir dirs) rest
  | (DownloadArticle _ | UpdateProgress _ _ | GenFile _ _ _ _) as ev :: rest =>
      ev :: diskWrites dirs rest
  | (ProgressInit _ _ | BarStop | Log _) :: rest => diskWrites dirs rest
  end.

(** ** The progress store across runs *)

(** Modelled from the spec: the persistence of [ProgressBar] is not among
    the sources.  The spec's [append] is called once for each entry
    disposed of and only ever appends, so the store after a list of
    calls is the store before it followed by the items of the progress
    updates, whatever their flag. *)
Definition persisted (store : list IProgressItem) (evs : list Event)
    : list IProgressItem :=
  store ++ progressItems evs.

(** Modelled from the spec: [ProgressBar.init] is not among the sources.
    The spec's [load] restores the completed count as the number of
    entries already disposed of, and exposes the items to replay; a run
    that is not interrupted starts at count 0 with an empty index, so a
    store that is not empty makes the run an interrupted one. *)
Definition restore (store : list IProgressItem) : ProgressBar :=
  {| curr := length store;
     isDownloadInterrupted := negb (Nat.eqb (length store) 0);
     progressInfo := store;
     bar := true |}.

(** ** Sample inputs *)

(** The world in which every call resolves. *)
Definition quiet : World := fun _ _ => None.

Definition mkToc (ty u parent child t link : string) : Toc :=
  {| type := Some (js ty); uuid := js u; parent_uuid := js parent;
     child_uuid := Some (js child); title := js t; url := js link |}.

Definition demoOptions : IOptions :=
  {| distDir := js "download"; ignoreImg := true |}.

Definition demoInfo (tocs : list Toc) : IKnowledgeBaseInfo :=
  {| bookId := Some 7%N; bookSlug := Some (js "demo"); tocList := Some tocs;
     bookName := Some (js "Demo"); bookDesc := None |}.

Definition demoPrefix : jsstring := js "https://www.yuque.com/u/demo".

Definition demoEnv : LoopEnv :=
  {| env_bookPath := js "download/Demo"; env_bookId := 7%N;
     env_articleUrlPrefix := demoPrefix; env_ignoreImg := true |}.

(** The progress bar of a first run, and of a run that finds [n] entries
    already done. *)
Definition freshBar : ProgressBar :=
  {| curr := 0; isDownloadInterrupted := false; progressInfo := [];
     bar := true |}.

Definition doneBar (n : nat) : ProgressBar :=
  {| curr := n; isDownloadInterrupted := false; progressInfo := [];
     bar := true |}.

Definition emptyState : LoopState := initialState freshBar.

(** An article whose download failed, and the state that it leaves. *)
Definition helloEntry : Toc := mkToc "DOC" "2" "1" "" "Hello" "abc".

Definition failedState : LoopState :=
  afterArticle demoEnv emptyState helloEntry (Some (js "timeout")).

(** The world in which the download of [abc] fails and all else works. *)
Definition flaky : World :=
  fun _ ev =>
    match ev with
    | DownloadArticle params =>
        if bool_decide (dl_itemUrl params = js "abc")
        then Some (js "timeout") else None
    | _ => None
    end.

(** The chain root, A, B, C of the spec: two titles and an article named
    X below them. *)
Definition chainToc : list Toc :=
  [mkToc "TITLE" "a" "" "b" "A" "";
   mkToc "TITLE" "b" "a" "c" "B" "";
   mkToc "DOC" "c" "b" "" "X" "x1"].

(** The state once the two titles of the chain are done. *)
Definition chainState : LoopState :=
  match snd (forLoop quiet 3 demoEnv (take 2 chainToc) emptyState []) with
  | Return st => st
  | _ => emptyState
  end.

Definition siteEntry : Toc :=
  mkToc "LINK" "3" "1" "" "Site" "https://example.org".

(** An index with one title, and a child of that title. *)
Definition introEntry : Toc := mkToc "TITLE" "1" "" "2" "Intro" "".
Definition introIndex : UuidMap := nextIndex 1 ∅ introEntry.
Definition partEntry : Toc := mkToc "TITLE" "4" "1" "" "Part" "".

(** An entry that names itself as its parent, and a child of it. *)
Definition selfParent : Toc := mkToc "TITLE" "a" "a" "" "A" "".
Definition childOfSelf : Toc := mkToc "TITLE" "b" "a" "" "B" "".
Definition cycleIndex : UuidMap := nextIndex 1 ∅ selfParent.

(** An article as the code may get it from a response that leaves
    [child_uuid] out; and a title that is a dot segment. *)
Definition bareEntry : Toc :=
  {| type := Some (js "DOC"); uuid := js "5"; parent_uuid := js "";
     child_uuid := None; title := js "Page"; url := js "abc" |}.
Definition dotsEntry : Toc := mkToc "TITLE" "8" "" "" ".." "".

(** A link below the entry that names itself as its parent; and a
    title below the link of the samples. *)
Definition linkOfSelf : Toc :=
  mkToc "LINK" "c" "a" "" "Site" "https://example.org".
Definition underSite : Toc := mkToc "TITLE" "6" "3" "" "Part" "".

(** The state once the self-parented entry is done. *)
Definition cycleState : LoopState :=
  afterContainer emptyState selfParent title_tag ([js "A"], [js "a"]).

(** The run of the sample scenario of the spec: a title and an article. *)
Definition demoToc : list Toc := [introEntry; helloEntry].

Definition demoLoop : list Event * result LoopState :=
  forLoop quiet 5 (envOf demoOptions (demoInfo demoToc) demoPrefix 7%N)
    demoToc (initialState freshBar)
    (startCalls demoOptions (demoInfo demoToc) 7%N demoToc).

Definition demoState : LoopState :=
  match snd demoLoop with
  | Return st => st
  | _ => emptyState
  end.

(** ** Notions used in the further properties *)

(** A string without any character of the class of [dirNameReg]. *)
Definition illegalFree (s : jsstring) : Prop :=
  Forall (fun c => dirNameReg c = false) s.

(** A string that [fixPath] has nothing to do on. *)
Definition plain (s : jsstring) : Prop :=
  Forall (fun c => dirNameReg c = false /\ whitespace c = false) s.

(** The path segments of an item, and of every item of an index, hold no
    illegal character. *)
Definition cleanItem (p : IProgressItem) : Prop :=
  Forall illegalFree (pathTitleList p).

Definition cleanIndex (m : UuidMap) : Prop :=
  map_Forall (fun _ p => cleanItem p) m.

(** The counters of the loop agree with the two lists they count. *)
Definition countsAgree (st : LoopState) : Prop :=
  errArticleCount st = length (errArticleInfo st) /\
  warnArticleCount st = length (warnArticleInfo st) /\
  errArticleCount st <= totalArticleCount st.

(** The downloads asked for, and the progress updates made with flag
    [false], in a list of calls. *)
Definition downloadCall (ev : Event) : option IDownloadArticleParams :=
  match ev with
  | DownloadArticle params => Some params
  | _ => None
  end.

Definition downloads (evs : list Event) : list IDownloadArticleParams :=
  omap downloadCall evs.

Definition failedUpdate (ev : Event) : option IProgressItem :=
  match ev with
  | UpdateProgress p false => Some p
  | _ => None
  end.

Definition failedUpdates (evs : list Event) : list IProgressItem :=
  omap failedUpdate evs.

(** [typeof item.type === 'string']. *)
Definition hasStringType (item : Toc) : bool :=
  match type item with
  | Some _ => true
  | None => false
  end.

Fixpoint countStringTyped (items : list Toc) : nat :=
  match items with
  | [] => 0
  | item :: rest =>
      (if hasStringType item then 1 else 0) + countStringTyped rest
  end.

(** Where a call of the loop puts a directory or a file. *)
Definition underBookPath (env : LoopEnv) (ev : Event) : Prop :=
  match ev with
  | Mkdir dir => (env_bookPath env ++ slash) `prefix_of` dir
  | DownloadArticle params =>
      (env_bookPath env ++ slash) `prefix_of` dl_savePath params /\
      (env_bookPath env ++ slash) `prefix_of` dl_saveFilePath params
  | _ => True
  end.

(** The calls that the first branch makes once the walk has returned. *)
Definition containerEvents (env : LoopEnv) (item : Toc)
    (itemType : jsstring) (lists : list jsstring * list jsstring)
    : list Event :=
  (if bool_decide (itemType = link_tag) then []
   else [Mkdir (env_bookPath env ++ slash ++ join slash (fst lists))]) ++
  [UpdateProgress (dirItem item lists)
     (negb (bool_decide (itemType = link_tag)))].

(** The calls of one pass through the loop body when none of them is
    rejected, and the state that the body then returns. *)
Definition bodyEvents (w : World) (fuel : nat) (env : LoopEnv)
    (st : LoopState) (item : Toc) (h : list Event) : list Event :=
  match classify (uuidMap st) item with
  | ContainerLike itemType =>
      match ancestorWalk fuel (uuidMap st) item [] [] with
      | Some lists => containerEvents env item itemType lists
      | None => []
      end
  | LeafArticle =>
      let download := DownloadArticle (articleParams env (uuidMap st) item) in
      [download;
       UpdateProgress (articleItem (uuidMap st) item) (succeeded (w h download))]
  | NotString | Indexed | Nothing => []
  end.

Definition bodyState (w : World) (fuel : nat) (env : LoopEnv)
    (st : LoopState) (item : Toc) (h : list Event) : LoopState :=
  match classify (uuidMap st) item with
  | ContainerLike itemType =>
      match ancestorWalk fuel (uuidMap st) item [] [] with
      | Some lists => afterContainer st item itemType lists
      | None => st
      end
  | LeafArticle =>
      afterArticle env st item
        (w h (DownloadArticle (articleParams env (uuidMap st) item)))
  | NotString | Indexed | Nothing => st
  end.

(** What a list of calls adds to the counters, read off its calls. *)
Definition accounted (st st' : LoopState) (evs : list Event) : Prop :=
  totalArticleCount st' = totalArticleCount st + length (downloads evs) /\
  errArticleCount st' + warnArticleCount st'
  = errArticleCount st + warnArticleCount st + length (failedUpdates evs) /\
  progressCurr st' = progressCurr st + length (progressItems evs).

(** A run over a link, a title and an article whose download fails. *)
Definition mixedToc : list Toc := siteEntry :: demoToc.

Definition mixedLoop : list Event * result LoopState :=
  forLoop flaky 5 demoEnv mixedToc (initialState freshBar) [].

Definition mixedState : LoopState :=
  match snd mixedLoop with
  | Return st => st
  | _ => emptyState
  end.

(** The uuids of the entries for which a list of calls updates the
    progress. *)
Definition updatedUuids (evs : list Event) : list jsstring :=
  map (fun p => uuid (toc p)) (progressItems evs).

(** The lines that report completion in a list of calls. *)
Definition doneLog (ev : Event) : option Event :=
  match ev with
  | Log (LogDone _) => Some ev
  | _ => None
  end.

Definition doneLogs (evs : list Event) : list Event := omap doneLog evs.

(** An entry whose type is not a string. *)
Definition untypedEntry : Toc :=
  {| type := None; uuid := js "9"; parent_uuid := js "1";
     child_uuid := Some []; title := js "Odd"; url := js "odd" |}.

(** ** [downloadArticle]

    The function as the source has it, call by call.  The loop of [main]
    above sees only its outcome. *)

(** What a call of [axios.get] settles to: [{data, status}], or a
    rejection with a message. *)
Inductive AxiosAnswer (A : Type) :=
| Resolved (status : N) (data : option A)
| Rejected (message : jsstring).
Arguments Resolved {A} status data.
Arguments Rejected {A} message.

(** [ArticleResponse.RootObject], as far as the function reads it. *)
Record ArticleData := { sourcecode : option jsstring }.
Record RootObject := { data : option ArticleData }.

(** What [mdImg.run] rejects with: [e.message], [e.url], and the message
    of [e.error] as a template literal prints it. *)
Record ImgError := {
  img_message : jsstring;
  img_url : option jsstring;
  img_error : option jsstring
}.

Inductive ImgAnswer :=
| ImgDone (mdData : jsstring)
| ImgFailed (e : ImgError).

(** The outside world of one call of [downloadArticle]: each of the
    three services is asked once at most. *)
Record ArticleWorld := {
  axiosGet : jsstring -> AxiosAnswer RootObject;
  mdImgRun : jsstring -> jsstring -> jsstring -> ImgAnswer;
  writeFile : jsstring -> jsstring -> option jsstring
}.

Inductive ArticleEvent :=
| AxiosGet (apiUrl : jsstring)
| BarPause
| ConsoleLog (text : jsstring)
| SpinnerStart (text : jsstring)
| MdImgRun (mdData dist imgDir : jsstring)
| SpinnerStop
| BarContinue
| WriteFile (file content : jsstring).

(** [s.startsWith(t)]. *)
Fixpoint startsWith (t s : jsstring) : bool :=
  match t, s with
  | [], _ => true
  | _ :: _, [] => false
  | a :: t', b :: s' => (a =? b)%N && startsWith t' s'
  end.

(** The length of a match of [<br(\s?)\/>] at the head of [s]: the tag
    with no blank or with one. *)
Definition brTagLength (s : jsstring) : option nat :=
  if startsWith (js "<br/>") s then Some 5
  else
    match s with
    | _ :: _ :: _ :: c :: rest =>
        if startsWith (js "<br") s && whitespace c && startsWith (js "/>") rest
        then Some 6 else None
    | _ => None
    end.

(** [mdData.replace(/<br(\s?)\/>/gm, '\n')]: matches are looked for from
    left to right and do not overlap; [skip] counts the characters of
    the current match still to pass over. *)
Fixpoint brReplaceFrom (skip : nat) (s : jsstring) : jsstring :=
  match s with
  | [] => []
  | c :: rest =>
      match skip with
      | S n => brReplaceFrom n rest
      | O =>
          match brTagLength s with
          | Some len => 10%N :: brReplaceFrom (pred len) rest
          | None => c :: brReplaceFrom 0 rest
          end
      end
  end.

Definition brReplace (s : jsstring) : jsstring := brReplaceFrom 0 s.

(** What [URLSearchParams] makes of a printed number: digits, letters
    and the dot stay as they are, and the plus sign of an exponent is
    escaped. *)
Definition queryNumber (s : jsstring) : jsstring :=
  flat_map (fun c => if (c =? 43)%N then js "%2B" else [c]) s.

(** The url of the api.  [URLSearchParams] joins the three pairs with
    [&] and leaves digits, letters and the underscore as they are. *)
Definition apiUrlOf (params : IDownloadArticleParams) : jsstring :=
  js "https://www.yuque.com/api/docs/" ++ dl_itemUrl params ++ js "?" ++
  js "book_id=" ++ queryNumber (numberToString (dl_bookId params)) ++
  js "&merge_dynamic_data=false&mode=markdown".

(** The message of the [catch] after the request. *)
Definition fetchError (apiUrl msg : jsstring) : jsstring :=
  js "download article Error: " ++ apiUrl ++ js " " ++ msg.

(** The request: the [then] throws on a missing source or on a status
    other than 200, and the [catch] wraps what it throws as it wraps a
    rejection of the request itself. *)
Definition fetchSource (aw : ArticleWorld) (apiUrl : jsstring)
    : result jsstring :=
  match axiosGet aw apiUrl with
  | Rejected msg => Throw (fetchError apiUrl msg)
  | Resolved status body =>
      if (status =? 200)%N then
        match body with
        | Some {| data := Some {| sourcecode := Some (c :: src) |} |} =>
            Return (c :: src)
        | _ =>
            Throw (fetchError apiUrl (js "download article Error: " ++ apiUrl))
        end
      else
        Throw (fetchError apiUrl
                 (js "download article Error: " ++ apiUrl ++
                  js " http status " ++ numberToString status))
  end.

(** The text of the spinner: the title between quotes, in a Chinese
    sentence. *)
Definition spinnerText (articleTitle : jsstring) : jsstring :=
  [19979; 36733; 32; 34]%N ++ articleTitle ++
  [34; 32; 30340; 22270; 29255; 20013; 46; 46; 46]%N.

(** The message of the [catch] around [mdImg.run]. *)
Definition imageError (e : ImgError) : jsstring :=
  match img_error e, img_url e with
  | Some inner, Some (c :: u) =>
      js "download article image Error " ++ (c :: u) ++ js ": " ++ inner
  | _, _ => js "download article image Error: " ++ img_message e
  end.

(** The calls of the block under [if (!ignoreImg)], the [finally]
    included, and its result. *)
Definition pullImages (aw : ArticleWorld) (params : IDownloadArticleParams)
    (mdData : jsstring) : list ArticleEvent * result jsstring :=
  if dl_ignoreImg params then ([], Return mdData)
  else
    let imgDir := js "img/" ++ dl_uuid params in
    ([BarPause; ConsoleLog [];
      SpinnerStart (spinnerText (dl_articleTitle params));
      MdImgRun mdData (dl_savePath params) imgDir;
      SpinnerStop; BarContinue],
     match mdImgRun aw mdData (dl_savePath params) imgDir with
     | ImgDone localized => Return localized
     | ImgFailed e => Throw (imageError e)
     end).

(** The text of the file: line breaks for the tags, then the header
    when there is a title and the footer when there is a url. *)
Definition pageOf (params : IDownloadArticleParams) (mdData : jsstring)
    : jsstring :=
  let body := brReplace mdData in
  let titled :=
    if truthy (dl_articleTitle params)
    then js "# " ++ dl_articleTitle params ++ [10]%N ++
         js "<!--page header-->" ++ [10; 10]%N ++ body ++ [10; 10]%N
    else body in
  if truthy (dl_articleUrl params)
  then titled ++ js "<!--page footer-->" ++ [10]%N ++ js "- " ++
       [21407; 25991]%N ++ js ": <" ++ dl_articleUrl params ++ js ">"
  else titled.

(** The message of the [catch] around [writeFile]. *)
Definition writeError (params : IDownloadArticleParams) (msg : jsstring)
    : jsstring :=
  js "download article Error " ++ dl_articleUrl params ++ js ": " ++ msg.

Definition downloadArticle (aw : ArticleWorld)
    (params : IDownloadArticleParams) : list ArticleEvent * result bool :=
  let apiUrl := apiUrlOf params in
  match fetchSource aw apiUrl with
  | Throw msg => ([AxiosGet apiUrl], Throw msg)
  | Diverge => ([AxiosGet apiUrl], Diverge)
  | Return source =>
      match pullImages aw params source with
      | (calls, Throw msg) => (AxiosGet apiUrl :: calls, Throw msg)
      | (calls, Diverge) => (AxiosGet apiUrl :: calls, Diverge)
      | (calls, Return mdData) =>
          let file := dl_saveFilePath params in
          let page := pageOf params mdData in
          (AxiosGet apiUrl :: calls ++ [WriteFile file page],
           match writeFile aw file page with
           | None => Return true
           | Some msg => Throw (writeError params msg)
           end)
      end
  end.

(** The calls on the progress bar and the spinner, and the calls of
    [writeFile], in a list of calls.  [mdImg.run], which stores the
    images below [dist], is a call of its own. *)
Definition controlCall (ev : ArticleEvent) : option ArticleEvent :=
  match ev with
  | BarPause | SpinnerStart _ | SpinnerStop | BarContinue => Some ev
  | _ => None
  end.

Definition controlCalls (evs : list ArticleEvent) : list ArticleEvent :=
  omap controlCall evs.

Definition writeFileCall (ev : ArticleEvent) : option (jsstring * jsstring) :=
  match ev with
  | WriteFile file content => Some (file, content)
  | _ => None
  end.

Definition writeFileCalls (evs : list ArticleEvent)
    : list (jsstring * jsstring) :=
  omap writeFileCall evs.



(** The source that a resolved request carries, when it is there and
    not empty. *)
Definition sourceIn (body : option RootObject) : option jsstring :=
  match body with
  | Some {| data := Some {| sourcecode := Some (c :: src) |} |} =>
      Some (c :: src)
  | _ => None
  end.

(** The tag, with no blank or with the blank [c]. *)
Definition brTag (blank : option N) : jsstring :=
  js "<br" ++ match blank with Some c => [c] | None => [] end ++ js "/>".

(** How every message that [downloadArticle] throws begins. *)
Definition articlePrefix : jsstring := js "download article ".

(** Sample worlds for one download: an api that answers 404, an api
    that delivers a source, and one whose images cannot be pulled. *)
Definition helloParams : IDownloadArticleParams :=
  articleParams demoEnv introIndex helloEntry.

Definition brokenApi : ArticleWorld :=
  {| axiosGet := fun _ => Resolved 404%N None;
     mdImgRun := fun md _ _ => ImgDone md;
     writeFile := fun _ _ => None |}.

Definition goodApi : ArticleWorld :=
  {| axiosGet := fun _ =>
       Resolved 200%N
         (Some {| data := Some {| sourcecode := Some (js "Hi<br/>there") |} |});
     mdImgRun := fun md _ _ => ImgDone md;
     writeFile := fun _ _ => None |}.

Definition noImages : ArticleWorld :=
  {| axiosGet := axiosGet goodApi;
     mdImgRun := fun _ _ _ =>
       ImgFailed {| img_message := js "timeout"; img_url := None;
                    img_error := None |};
     writeFile := fun _ _ => None |}.

Definition withImages (params : IDownloadArticleParams)
    : IDownloadArticleParams :=
  {| dl_bookId := dl_bookId params;
     dl_itemUrl := dl_itemUrl params;
     dl_savePath := dl_savePath params;
     dl_saveFilePath := dl_saveFilePath params;
     dl_uuid := dl_uuid params;
     dl_articleTitle := dl_articleTitle params;
     dl_articleUrl := dl_articleUrl params;
     dl_ignoreImg := false |}.


(** ** [getKnowledgeBaseInfo] *)

(** The book of [KnowledgeBase.Response], as far as the function reads
    it; a field is [None] when it is missing. *)
Record Book := {
  book_id : option N;
  book_slug : option jsstring;
  book_toc : option (list Toc);
  book_name : option jsstring;
  book_description : option jsstring
}.

(** The characters that the dot of a regular expression does not
    match. *)
Definition lineTerminator (c : N) : bool :=
  (c =? 10)%N || (c =? 13)%N || (c =? 8232)%N || (c =? 8233)%N.

Definition noTerminator (s : jsstring) : Prop :=
  Forall (fun c => lineTerminator c = false) s.

(** The two literal parts of [knowledgeBaseReg]: the call with its
    opening quote, and the closing quote with the two brackets and the
    semicolon. *)
Definition openMark : jsstring := js "decodeURIComponent(" ++ [34]%N.
Definition closeMark : jsstring := [34]%N ++ js "));".

(** The group [(.+)] once the opening part has matched, without the
    demand that it be non-empty: the dot takes as many characters of the
    line as it can, and gives back as few as it must for the closing
    part to follow. *)
Fixpoint greedyGroup (s : jsstring) : option jsstring :=
  match s with
  | [] => None
  | c :: rest =>
      let here := if startsWith closeMark s then Some [] else None in
      if lineTerminator c then here
      else
        match greedyGroup rest with
        | Some g => Some (c :: g)
        | None => here
        end
  end.

(** A match that starts at the head of [s]. *)
Definition groupAt (s : jsstring) : option jsstring :=
  if startsWith openMark s
  then
    match greedyGroup (drop (length openMark) s) with
    | Some (c :: g) => Some (c :: g)
    | _ => None
    end
  else None.

(** [html.match(knowledgeBaseReg)], then [data[1]]: the group of the
    leftmost match. *)
Fixpoint knowledgeBaseMatch (html : jsstring) : option jsstring :=
  match html with
  | [] => None
  | _ :: rest =>
      match groupAt html with
      | Some g => Some g
      | None => knowledgeBaseMatch rest
      end
  end.

(** The object [{}]. *)
Definition emptyInfo : IKnowledgeBaseInfo :=
  {| bookId := None; bookSlug := None; tocList := None;
     bookName := None; bookDesc := None |}.

(** [x || ''] on a string that may be missing. *)
Definition orEmpty (x : option jsstring) : jsstring :=
  match x with
  | Some (c :: s) => c :: s
  | _ => []
  end.

Definition infoOf (book : Book) : IKnowledgeBaseInfo :=
  {| bookId := book_id book;
     bookSlug := book_slug book;
     tocList := Some (default [] (book_toc book));
     bookName := Some (orEmpty (book_name book));
     bookDesc := Some (orEmpty (book_description book)) |}.

(** The text that the second [then] gets: [data], ['']  by default, on
    status 200, and [''] otherwise. *)
Definition htmlOf (status : N) (body : option jsstring) : jsstring :=
  if (status =? 200)%N then default [] body else [].

(** The function.  [get] is [axios.get]; [decode] stands for
    [JSON.parse(decodeURIComponent(..))] followed by the reading of
    [.book]: it throws when either of the two throws, and returns [None]
    when the book is missing. *)
Definition getKnowledgeBaseInfo (get : jsstring -> AxiosAnswer jsstring)
    (decode : jsstring -> result (option Book)) (url : jsstring)
    : result IKnowledgeBaseInfo :=
  match get url with
  | Rejected msg => Throw msg
  | Resolved status body =>
      match knowledgeBaseMatch (htmlOf status body) with
      | None => Return emptyInfo
      | Some payload =>
          match decode payload with
          | Return (Some book) => Return (infoOf book)
          | Return None => Return emptyInfo
          | Throw msg => Throw msg
          | Diverge => Diverge
          end
      end
  end.

(** [main] from its first line. *)
Definition mainFromUrl (get : jsstring -> AxiosAnswer jsstring)
    (decode : jsstring -> result (option Book)) (w : World) (fuel : nat)
    (url : jsstring) (options : IOptions)
    (articleUrlPrefix : result jsstring) (pb : ProgressBar) : M unit :=
  match getKnowledgeBaseInfo get decode url with
  | Return info => main w fuel options info articleUrlPrefix pb
  | Throw msg => throw msg
  | Diverge => diverge
  end.

(** A page with the marker, and a book without a list of entries. *)
Definition samplePage : jsstring :=
  js "<script>x = JSON.parse(" ++ openMark ++ js "%7B%7D" ++ closeMark ++
  js "</script>".

Definition bareBook : Book :=
  {| book_id := Some 7%N; book_slug := Some (js "demo"); book_toc := None;
     book_name := None; book_description := None |}.

Definition demoBook : Book :=
  {| book_id := Some 7%N; book_slug := Some (js "demo");
     book_toc := Some demoToc; book_name := None;
     book_description := None |}.

(** A server that answers every request with [page], and a decoder that
    finds [book] in every payload. *)
Definition serve (status : N) (page : jsstring)
    : jsstring -> AxiosAnswer jsstring :=
  fun _ => Resolved status (Some page).

Definition decodeTo (book : Book) : jsstring -> result (option Book) :=
  fun _ => Return (Some book).

(** A computation that throws only where the world rejects one of its
    awaited calls: the call is its last, the message is the one of the
    rejection, and the call is not a download. *)
Definition stopsAtRejection {A} (w : World) (m : M A) : Prop :=
  forall h evs msg,
    m h = (evs, Throw msg) ->
    exists pre ev,
      evs = pre ++ [ev] /\ w (h ++ pre) ev = Some msg /\
      downloadCall ev = None.

(** A disk on which no directory can be created. *)
Definition fullDisk : World :=
  fun _ ev =>
    match ev with
    | Mkdir _ => Some (js "ENOSPC")
    | _ => None
    end.

(** A rank on the uuids of the samples: the code of a one-character
    uuid, and 0 for any other. *)
Definition uuidRank (k : jsstring) : nat :=
  match k with
  | [c] => N.to_nat c
  | _ => 0
  end.

(** * Properties *)

(** ** The monad *)

Lemma bind_return {A B} (m : M A) (k : A -> M B) h evs a :
  m h = (evs, Return a) ->
  bind m k h = (evs ++ fst (k a (h ++ evs)), snd (k a (h ++ evs))).
Proof. intros Hm. unfold bind. rewrite Hm. by destruct (k a (h ++ evs)). Qed.

Lemma bind_throw {A B} (m : M A) (k : A -> M B) h evs msg :
  m h = (evs, Throw msg) -> bind m k h = (evs, Throw msg).
Proof. intros Hm. unfold bind. by rewrite Hm. Qed.

Lemma bind_diverge {A B} (m : M A) (k : A -> M B) h evs :
  m h = (evs, Diverge) -> bind m k h = (evs, Diverge).
Proof. intros Hm. unfold bind. by rewrite Hm. Qed.

(** ** The path sanitizer *)

Lemma replaceIllegal_lookup (s : jsstring) (i : nat) (c : N) :
  s !! i = Some c ->
  replaceIllegal s !! i = Some (if dirNameReg c then 95%N else c).
Proof. intros H. unfold replaceIllegal. by rewrite list_lookup_fmap, H. Qed.

Lemma removeFirstSpace_spec (t : jsstring) :
  (noSpace t /\ removeFirstSpace t = t) \/
  (exists pre c post,
      t = pre ++ c :: post /\ noSpace pre /\ whitespace c = true /\
      removeFirstSpace t = pre ++ post).
Proof.
  induction t as [|c t IH]; cbn [removeFirstSpace].
  - left. split; [constructor | done].
  - destruct (whitespace c) eqn:Hc.
    + right. exists [], c, t. repeat split; [constructor | done].
    + destruct IH as [[Hns Heq] | (pre & d & post & Ht & Hns & Hd & Heq)].
      * left. split; [by constructor | by rewrite Heq].
      * right. exists (c :: pre), d, post. rewrite Heq, Ht.
        repeat split; [by constructor | done].
Qed.

(** C8.  [fixPath] maps the empty string to the empty string.  On any
    string it first replaces, position by position, every character of
    the illegal class by an underscore and keeps the others; from the
    string so obtained it then removes the first whitespace character
    and nothing else, or nothing at all when there is none. *)
Theorem fixPath_spec (s : jsstring) :
  fixPath [] = [] /\
  length (replaceIllegal s) = length s /\
  (forall i c, s !! i = Some c ->
     replaceIllegal s !! i = Some (if dirNameReg c then 95%N else c)) /\
  ((noSpace (replaceIllegal s) /\ fixPath s = replaceIllegal s) \/
   (exists pre c post,
       replaceIllegal s = pre ++ c :: post /\ noSpace pre /\
       whitespace c = true /\ fixPath s = pre ++ post)).
Proof.
  split; [done |]. split; [apply length_map |].
  split; [intros i c; apply replaceIllegal_lookup |].
  destruct s as [|c s].
  - left. split; [constructor | done].
  - change (fixPath (c :: s)) with (removeFirstSpace (replaceIllegal (c :: s))).
    apply removeFirstSpace_spec.
Qed.

Lemma fixPath_spec_witness :
  replaceIllegal (js "a/b c") !! 1 = Some 95%N.
Proof.
  destruct (fixPath_spec (js "a/b c")) as (_ & _ & Hreplace & _).
  apply (Hreplace 1 47%N). reflexivity.
Defined.

(** Only the first blank goes; a line feed has become an underscore
    before the blanks are looked at. *)
Example fixPath_later_spaces_kept :
  fixPath (js "a/b c d e") = js "a_bc d e" /\
  fixPath [97; 10; 98; 32; 99; 9; 100]%N = [97; 95; 98; 99; 9; 100]%N.
Proof. split; reflexivity. Qed.

(** ** Classification of an entry *)

Lemma isContainer_true (itemType : jsstring) (item : Toc) :
  isContainer itemType item = true <->
  itemType = title_tag \/ itemType = link_tag \/ child_uuid item <> Some [].
Proof.
  unfold isContainer.
  rewrite !orb_true_iff, negb_true_iff, !bool_decide_eq_true,
    bool_decide_eq_false.
  tauto.
Qed.

Lemma truthy_true (s : jsstring) : truthy s = true <-> s <> [].
Proof. destruct s; simpl; split; intros; congruence. Qed.

Lemma truthy_false (s : jsstring) : truthy s = false <-> s = [].
Proof. destruct s; simpl; split; intros; congruence. Qed.

(** C6, as the code has it.  An entry whose type is not a string is set
    aside before any classification.  An entry with a string type that
    is absent from the index is container-like exactly when its
    lowercased type is [title] or [link] or its [child_uuid] is anything
    but the empty string, a missing field included; failing that it is a
    leaf article exactly when its [url] is not empty; failing both it is
    nothing.  The loop body leaves the state as it is and makes no call
    for an entry set aside or classified as nothing. *)
Theorem classify_spec (m : UuidMap) (item : Toc) :
  (type item = None -> classify m item = NotString) /\
  (forall ty, type item = Some ty -> m !! uuid item = None ->
     let itemType := toLocaleLowerCase ty in
     let containerLike :=
       itemType = title_tag \/ itemType = link_tag \/
       child_uuid item <> Some [] in
     (classify m item = ContainerLike itemType <-> containerLike) /\
     (classify m item = LeafArticle <-> ~ containerLike /\ url item <> []) /\
     (classify m item = Nothing <-> ~ containerLike /\ url item = [])) /\
  (forall w fuel env st h,
     uuidMap st = m ->
     classify m item = NotString \/ classify m item = Nothing ->
     loopBody w fuel env st item h = ([], Return st)).
Proof.
  split; [| split].
  - intros Hty. unfold classify. by rewrite Hty.
  - intros ty Hty Hm itemType containerLike.
    unfold classify. rewrite Hty, Hm. fold itemType.
    pose proof (isContainer_true itemType item) as Hc.
    fold containerLike in Hc.
    destruct (isContainer itemType item) eqn:Hcont.
    + assert containerLike as Hyes by by apply Hc.
      repeat split; try done; intros; tauto.
    + assert (~ containerLike) as Hno by (intros Hn; apply Hc in Hn; done).
      destruct (truthy (url item)) eqn:Hurl.
      * apply truthy_true in Hurl. repeat split; try done; intros; tauto.
      * apply truthy_false in Hurl.
        repeat split; try done; intros; tauto.
  - intros w fuel env st h <- Hcl. unfold loopBody.
    by destruct Hcl as [-> | ->].
Qed.

Lemma classify_spec_witness :
  classify ∅ (mkToc "DOC" "2" "1" "" "Hello" "abc") = LeafArticle.
Proof.
  destruct (classify_spec ∅ (mkToc "DOC" "2" "1" "" "Hello" "abc"))
    as (_ & Hstring & _).
  apply (Hstring (js "DOC")); [reflexivity | apply lookup_empty |].
  split; [| discriminate].
  intros [H | [H | H]]; [discriminate H | discriminate H | by apply H].
Defined.

(** An entry of type DOC with a url and without the field [child_uuid]
    has no child marker, yet [undefined !== ''] holds: the entry is
    container-like, and the loop makes a directory for it instead of
    downloading it. *)
Lemma child_marker_missing :
  type bareEntry = Some (js "DOC") /\
  child_uuid bareEntry = None /\
  url bareEntry = js "abc" /\
  classify ∅ bareEntry = ContainerLike (js "doc") /\
  classify ∅ bareEntry <> LeafArticle /\
  loopBody quiet 5 demoEnv emptyState bareEntry []
  = ([Mkdir (js "download/Demo/Page");
      UpdateProgress (dirItem bareEntry ([js "Page"], [js "5"])) true],
     Return (afterContainer emptyState bareEntry (js "doc")
               ([js "Page"], [js "5"]))).
Proof.
  split; [reflexivity |]. split; [reflexivity |]. split; [reflexivity |].
  split; [reflexivity |]. split; [discriminate |].
  vm_compute. reflexivity.
Qed.

(** The type is compared after lowercasing. *)
Example classify_ignores_case :
  classify ∅ (mkToc "TITLE" "1" "" "" "Intro" "") = ContainerLike (js "title") /\
  classify ∅ (mkToc "Link" "3" "1" "" "Site" "https://example.org")
  = ContainerLike (js "link").
Proof. split; reflexivity. Qed.

Lemma classify_fresh (m : UuidMap) (item : Toc) :
  (exists t, classify m item = ContainerLike t) \/ classify m item = LeafArticle ->
  m !! uuid item = None.
Proof.
  unfold classify. destruct (type item); [| intros [[? ?] | ?]; done].
  destruct (m !! uuid item); [intros [[? ?] | ?]; done | done].
Qed.

Lemma classify_container_type (m : UuidMap) (item : Toc) (t : jsstring) :
  classify m item = ContainerLike t ->
  exists ty, type item = Some ty /\ t = toLocaleLowerCase ty.
Proof.
  unfold classify. destruct (type item) as [ty|]; [| done].
  destruct (m !! uuid item); [done |].
  destruct (isContainer _ item); [| by destruct (truthy (url item))].
  intros [= <-]. by exists ty.
Qed.

(** ** One step of the loop *)

Lemma articleBranch_eq w env st item h :
  let params := articleParams env (uuidMap st) item in
  let p := articleItem (uuidMap st) item in
  let failure := w h (DownloadArticle params) in
  articleBranch w env st item h =
  ([DownloadArticle params; UpdateProgress p (succeeded failure)],
   match w (h ++ [DownloadArticle params])
           (UpdateProgress p (succeeded failure)) with
   | None => Return (afterArticle env st item failure)
   | Some msg => Throw msg
   end).
Proof.
  intros params p failure.
  unfold articleBranch, bind, try_call, updateProgress, bind, call, ret.
  fold params p failure. unfold afterArticle. fold p.
  destruct failure; simpl;
    destruct (w (h ++ [DownloadArticle params]) _); simpl; reflexivity.
Qed.

Lemma containerBranch_link w fuel env st item lists h :
  ancestorWalk fuel (uuidMap st) item [] [] = Some lists ->
  containerBranch w fuel env st item link_tag h =
  ([UpdateProgress (dirItem item lists) false],
   match w h (UpdateProgress (dirItem item lists) false) with
   | None => Return (afterContainer st item link_tag lists)
   | Some msg => Throw msg
   end).
Proof.
  intros Hwalk.
  unfold containerBranch, afterContainer. rewrite Hwalk.
  rewrite bool_decide_eq_true_2 by done.
  unfold bind, updateProgress, bind, call, ret. simpl.
  rewrite app_nil_r.
  by destruct (w h _).
Qed.

Lemma containerBranch_dir w fuel env st item itemType lists h :
  itemType <> link_tag ->
  ancestorWalk fuel (uuidMap st) item [] [] = Some lists ->
  let dir := Mkdir (env_bookPath env ++ slash ++ join slash (fst lists)) in
  containerBranch w fuel env st item itemType h =
  match w h dir with
  | Some msg => ([dir], Throw msg)
  | None =>
      ([dir; UpdateProgress (dirItem item lists) true],
       match w (h ++ [dir]) (UpdateProgress (dirItem item lists) true) with
       | None => Return (afterContainer st item itemType lists)
       | Some msg => Throw msg
       end)
  end.
Proof.
  intros Hne Hwalk dir.
  unfold containerBranch, afterContainer. rewrite Hwalk.
  rewrite bool_decide_eq_false_2 by done.
  unfold bind, updateProgress, bind, call, ret. fold dir. simpl.
  destruct (w h dir); [done |]. simpl.
  by destruct (w (h ++ [dir]) _).
Qed.

Lemma containerBranch_diverge w fuel env st item itemType h :
  ancestorWalk fuel (uuidMap st) item [] [] = None ->
  containerBranch w fuel env st item itemType h = ([], Diverge).
Proof. intros Hwalk. unfold containerBranch. by rewrite Hwalk. Qed.

Lemma loopBody_indexed w fuel env st item p h :
  uuidMap st !! uuid item = Some p ->
  loopBody w fuel env st item h = ([], Return st).
Proof.
  intros Hp. unfold loopBody, classify. rewrite Hp.
  by destruct (type item).
Qed.

Lemma afterContainer_index st item itemType lists :
  uuidMap (afterContainer st item itemType lists)
  = <[uuid item := dirItem item lists]> (uuidMap st).
Proof. unfold afterContainer. by destruct (bool_decide _). Qed.

Lemma afterArticle_index env st item failure :
  uuidMap (afterArticle env st item failure)
  = <[uuid item := articleItem (uuidMap st) item]> (uuidMap st).
Proof. unfold afterArticle. by destruct failure. Qed.

Lemma loopBody_index w fuel env st item h evs st' :
  loopBody w fuel env st item h = (evs, Return st') ->
  uuidMap st' = nextIndex fuel (uuidMap st) item.
Proof.
  unfold loopBody, nextIndex.
  destruct (classify (uuidMap st) item) as [| |itemType| |] eqn:Hcl;
    try (intros [= _ <-]; reflexivity).
  - destruct (ancestorWalk fuel (uuidMap st) item [] []) as [lists|] eqn:Hw.
    + destruct (decide (itemType = link_tag)) as [-> | Hne].
      * rewrite (containerBranch_link _ _ _ _ _ lists) by done.
        destruct (w h _); [done |]. intros [= _ <-].
        apply afterContainer_index.
      * rewrite (containerBranch_dir _ _ _ _ _ _ lists) by done.
        destruct (w h _); [done |].
        destruct (w (h ++ _) _); [done |]. intros [= _ <-].
        apply afterContainer_index.
    + by rewrite containerBranch_diverge.
  - rewrite articleBranch_eq.
    destruct (w (h ++ _) _); [done |]. intros [= _ <-].
    apply afterArticle_index.
Qed.

Lemma nextIndex_subseteq (fuel : nat) (m : UuidMap) (item : Toc) :
  m ⊆ nextIndex fuel m item.
Proof.
  unfold nextIndex.
  destruct (classify m item) as [| |itemType| |] eqn:Hcl; try done.
  - destruct (ancestorWalk fuel m item [] []); [| done].
    apply insert_subseteq, classify_fresh. left. by exists itemType.
  - apply insert_subseteq, classify_fresh. by right.
Qed.

Lemma bind_inv_return {A B} (m : M A) (k : A -> M B) h evs b :
  bind m k h = (evs, Return b) ->
  exists e1 a e2,
    m h = (e1, Return a) /\ k a (h ++ e1) = (e2, Return b) /\ evs = e1 ++ e2.
Proof.
  unfold bind. destruct (m h) as [e1 [a| |]]; [| done | done].
  destruct (k a (h ++ e1)) as [e2 r] eqn:Hk. intros [= <- ->].
  by exists e1, a, e2.
Qed.

Lemma forLoop_index_mono w fuel env items st h evs st' :
  forLoop w fuel env items st h = (evs, Return st') ->
  uuidMap st ⊆ uuidMap st'.
Proof.
  revert st h evs. induction items as [|item rest IH]; intros st h evs.
  - by intros [= _ <-].
  - simpl. intros (e1 & s1 & e2 & H1 & H2 & _)%bind_inv_return.
    apply loopBody_index in H1. apply IH in H2.
    etrans; [| exact H2]. rewrite H1. apply nextIndex_subseteq.
Qed.

(** The index that a completed loop leaves depends on the entries and on
    the index it started from, not on the answers of the world. *)
Lemma forLoop_index_independent w1 w2 fuel env items st1 st2 h1 h2 e1 e2 s1 s2 :
  uuidMap st1 = uuidMap st2 ->
  forLoop w1 fuel env items st1 h1 = (e1, Return s1) ->
  forLoop w2 fuel env items st2 h2 = (e2, Return s2) ->
  uuidMap s1 = uuidMap s2.
Proof.
  revert st1 st2 h1 h2 e1 e2. induction items as [|item rest IH];
    intros st1 st2 h1 h2 e1 e2 Heq.
  - by intros [= _ <-] [= _ <-].
  - simpl. intros (? & t1 & ? & Hb1 & Hr1 & _)%bind_inv_return
                  (? & t2 & ? & Hb2 & Hr2 & _)%bind_inv_return.
    apply loopBody_index in Hb1, Hb2.
    eapply IH; [| exact Hr1 | exact Hr2]. by rewrite Hb1, Hb2, Heq.
Qed.

(** Every entry that the loop disposes of is in the index afterwards,
    whether its directory was made, its link noted, its article written
    or its download failed. *)
Lemma disposed_is_indexed w fuel env st item h evs st' :
  (exists t, classify (uuidMap st) item = ContainerLike t) \/
  classify (uuidMap st) item = LeafArticle ->
  loopBody w fuel env st item h = (evs, Return st') ->
  is_Some (uuidMap st' !! uuid item).
Proof.
  intros Hcl Hstep. pose proof Hstep as Hidx%loopBody_index.
  rewrite Hidx. unfold nextIndex.
  destruct Hcl as [[t Hcl] | Hcl]; rewrite Hcl.
  - destruct (ancestorWalk fuel (uuidMap st) item [] []) eqn:Hw.
    + rewrite lookup_insert_eq. by eexists.
    + unfold loopBody in Hstep. rewrite Hcl in Hstep.
      by rewrite containerBranch_diverge in Hstep.
  - rewrite lookup_insert_eq. by eexists.
Qed.

(** Every item replayed from an interrupted download is in the index
    before the loop starts. *)
Lemma loadIndex_lookup (pb : ProgressBar) (p : IProgressItem) :
  isDownloadInterrupted pb = true ->
  p ∈ progressInfo pb ->
  is_Some (loadIndex pb !! uuid (toc p)).
Proof.
  intros Hint Hin. unfold loadIndex. rewrite Hint.
  generalize (∅ : UuidMap) as m.
  induction (progressInfo pb) as [|q l IH]; intros m; [by inversion Hin |].
  simpl. apply elem_of_cons in Hin as [-> | Hin]; [| by apply IH].
  clear IH. assert (is_Some (<[uuid (toc q) := q]> m !! uuid (toc q))) as Hq
    by (rewrite lookup_insert_eq; by eexists).
  revert Hq. generalize (<[uuid (toc q) := q]> m) as m'.
  induction l as [|r l IH]; intros m' Hq; [done |].
  simpl. apply IH. destruct (decide (uuid (toc r) = uuid (toc q))) as [-> | Hne].
  - rewrite lookup_insert_eq. by eexists.
  - by rewrite lookup_insert_ne.
Qed.

(** C1.  An entry whose uuid is in the index when it is visited is
    skipped: the loop body makes no call (no directory, no download, no
    progress update) and returns the state as it was.  The index holds
    progress items only, with no record of success or failure, so the
    skip is the same for an item that failed.  The item stays in the
    index, unchanged, as long as the loop runs, so the entry is skipped
    at every later visit too. *)
Theorem indexed_entry_skipped w fuel env st item p :
  uuidMap st !! uuid item = Some p ->
  (forall h, loopBody w fuel env st item h = ([], Return st)) /\
  (forall items h evs st',
     forLoop w fuel env items st h = (evs, Return st') ->
     uuidMap st' !! uuid item = Some p /\
     forall h', loopBody w fuel env st' item h' = ([], Return st')).
Proof.
  intros Hp. split.
  - intros h. by eapply loopBody_indexed.
  - intros items h evs st' Hloop.
    assert (uuidMap st' !! uuid item = Some p) as Hp'.
    { eapply lookup_weaken; [exact Hp |]. by eapply forLoop_index_mono. }
    split; [done |]. intros h'. by eapply loopBody_indexed.
Qed.

Lemma indexed_entry_skipped_witness :
  loopBody quiet 5 demoEnv failedState helloEntry [] = ([], Return failedState).
Proof.
  apply (indexed_entry_skipped quiet 5 demoEnv failedState helloEntry
           (articleItem ∅ helloEntry)).
  apply lookup_insert_eq.
Defined.

(** An item replayed from an interrupted download keeps its entry from
    being visited again, whatever the earlier run recorded for it. *)
Lemma replayed_entry_skipped w fuel env pb p item items h evs st :
  isDownloadInterrupted pb = true ->
  p ∈ progressInfo pb ->
  uuid item = uuid (toc p) ->
  forLoop w fuel env items (initialState pb) h = (evs, Return st) ->
  forall h', loopBody w fuel env st item h' = ([], Return st).
Proof.
  intros Hint Hin Huuid Hloop h'.
  destruct (loadIndex_lookup pb p Hint Hin) as [q Hq].
  apply (loopBody_indexed _ _ _ _ _ q). rewrite Huuid.
  eapply lookup_weaken; [exact Hq |].
  apply (forLoop_index_mono _ _ _ _ _ _ _ _ Hloop).
Qed.

(** X13.  An entry disposed of earlier in the pass, be it by a download that
    failed, is not visited again in the pass. *)
Lemma disposed_entry_skipped w fuel env st item h evs st1 items h1 evs1 st2 :
  (exists t, classify (uuidMap st) item = ContainerLike t) \/
  classify (uuidMap st) item = LeafArticle ->
  loopBody w fuel env st item h = (evs, Return st1) ->
  forLoop w fuel env items st1 h1 = (evs1, Return st2) ->
  forall h', loopBody w fuel env st2 item h' = ([], Return st2).
Proof.
  intros Hcl Hstep Hloop h'.
  destruct (disposed_is_indexed _ _ _ _ _ _ _ _ Hcl Hstep) as [q Hq].
  apply (loopBody_indexed _ _ _ _ _ q).
  eapply lookup_weaken; [exact Hq |].
  apply (forLoop_index_mono _ _ _ _ _ _ _ _ Hloop).
Qed.

(** ** Leaf articles *)

Lemma forLoop_cons_return w fuel env item rest st h evs st' :
  loopBody w fuel env st item h = (evs, Return st') ->
  forLoop w fuel env (item :: rest) st h
  = (evs ++ fst (forLoop w fuel env rest st' (h ++ evs)),
     snd (forLoop w fuel env rest st' (h ++ evs))).
Proof. intros Hstep. simpl. by apply bind_return. Qed.

(** C2.  When the download of a leaf article fails with message [msg],
    the loop body makes the download call and then the progress update
    with flag [false]; it appends the article's url, progress item and
    message to the error list, counts the error, puts the item into the
    index and advances the progress count.  Unless the progress update
    itself is rejected the body returns and the loop goes on with the
    next entry.  The index that a completed loop leaves is the same
    whatever the downloads did. *)
Theorem fetch_failure_recorded w fuel env st item h msg :
  classify (uuidMap st) item = LeafArticle ->
  w h (DownloadArticle (articleParams env (uuidMap st) item)) = Some msg ->
  let download := DownloadArticle (articleParams env (uuidMap st) item) in
  let p := articleItem (uuidMap st) item in
  let update := UpdateProgress p false in
  let st' := afterArticle env st item (Some msg) in
  loopBody w fuel env st item h =
    ([download; update],
     match w (h ++ [download]) update with
     | None => Return st'
     | Some m => Throw m
     end) /\
  errArticleInfo st' =
    errArticleInfo st ++
    [{| articleUrl := articleUrlOf env item; errItem := p; errMsg := msg |}] /\
  errArticleCount st' = S (errArticleCount st) /\
  uuidMap st' !! uuid item = Some p /\
  progressCurr st' = S (progressCurr st) /\
  (w (h ++ [download]) update = None ->
   forall rest,
     forLoop w fuel env (item :: rest) st h =
       ([download; update] ++
          fst (forLoop w fuel env rest st' (h ++ [download; update])),
        snd (forLoop w fuel env rest st' (h ++ [download; update])))) /\
  (forall rest w2 h2 evs evs2 s s2,
     forLoop w fuel env (item :: rest) st h = (evs, Return s) ->
     forLoop w2 fuel env (item :: rest) st h2 = (evs2, Return s2) ->
     uuidMap s = uuidMap s2).
Proof.
  intros Hcl Hfail download p update st'.
  assert (loopBody w fuel env st item h =
          ([download; update],
           match w (h ++ [download]) update with
           | None => Return st'
           | Some m => Throw m
           end)) as Hstep.
  { unfold loopBody. rewrite Hcl, articleBranch_eq, Hfail. reflexivity. }
  split; [exact Hstep |].
  split; [reflexivity |]. split; [reflexivity |].
  split; [apply lookup_insert_eq |]. split; [reflexivity |].
  split.
  - intros Hok rest. rewrite Hok in Hstep.
    by apply forLoop_cons_return.
  - intros rest w2 h2 evs evs2 s s2 H1 H2.
    by eapply forLoop_index_independent.
Qed.

Lemma fetch_failure_recorded_witness :
  loopBody flaky 5 demoEnv emptyState helloEntry [] =
    ([DownloadArticle (articleParams demoEnv ∅ helloEntry);
      UpdateProgress (articleItem ∅ helloEntry) false],
     Return failedState).
Proof.
  apply (fetch_failure_recorded flaky 5 demoEnv emptyState helloEntry []
           (js "timeout")); reflexivity.
Defined.

(** C5.  The progress item of a leaf article has as path segments those
    of its parent's item, or none when the parent is not in the index,
    followed by the sanitized title with [.md] appended; its path is
    these segments joined by a slash, and the file is saved at that path
    under the book's directory. *)
Theorem article_path w fuel env st item h :
  classify (uuidMap st) item = LeafArticle ->
  let prefix :=
    match uuidMap st !! parent_uuid item with
    | Some parent => pathTitleList parent
    | None => []
    end in
  let segments := prefix ++ [fixPath (title item) ++ md_ext] in
  exists params p ok,
    fst (loopBody w fuel env st item h)
      = [DownloadArticle params; UpdateProgress p ok] /\
    pathTitleList p = segments /\
    path p = join slash segments /\
    dl_saveFilePath params = env_bookPath env ++ slash ++ join slash segments /\
    (forall st', snd (loopBody w fuel env st item h) = Return st' ->
       uuidMap st' !! uuid item = Some p) /\
    (uuidMap st !! parent_uuid item = None ->
       path p = fixPath (title item) ++ md_ext).
Proof.
  intros Hcl prefix segments.
  exists (articleParams env (uuidMap st) item),
         (articleItem (uuidMap st) item),
         (succeeded (w h (DownloadArticle (articleParams env (uuidMap st) item)))).
  assert (pathTitleList (articleItem (uuidMap st) item) = segments) as Hseg.
  { unfold articleItem, preItemOf, segments, prefix. simpl.
    by destruct (uuidMap st !! parent_uuid item). }
  assert (path (articleItem (uuidMap st) item) = join slash segments) as Hpath
    by (rewrite <- Hseg; reflexivity).
  unfold loopBody. rewrite Hcl, articleBranch_eq. simpl fst. simpl snd.
  split; [reflexivity |]. split; [exact Hseg |]. split; [exact Hpath |].
  split.
  { change (dl_saveFilePath (articleParams env (uuidMap st) item))
      with (env_bookPath env ++ slash ++ path (articleItem (uuidMap st) item)).
    by rewrite Hpath. }
  split.
  - destruct (w (h ++ _) _); [done |]. intros st' [= <-].
    rewrite afterArticle_index. apply lookup_insert_eq.
  - intros Hnone. rewrite Hpath. unfold segments, prefix. by rewrite Hnone.
Qed.

Example chain_path :
  exists evs st p,
    forLoop quiet 3 demoEnv chainToc emptyState [] = (evs, Return st) /\
    uuidMap st !! js "c" = Some p /\
    path p = js "A/B/X.md" /\
    pathIdList p = [js "a"; js "b"; js "c"].
Proof.
  eexists _, _, _. split; [vm_compute; reflexivity |].
  split; [vm_compute; reflexivity |]. split; reflexivity.
Qed.

Lemma article_path_witness :
  exists params p ok,
    fst (loopBody quiet 3 demoEnv chainState (mkToc "DOC" "c" "b" "" "X" "x1") [])
      = [DownloadArticle params; UpdateProgress p ok] /\
    path p = js "A/B/X.md" /\
    dl_saveFilePath params = js "download/Demo/A/B/X.md".
Proof.
  destruct (article_path quiet 3 demoEnv chainState
              (mkToc "DOC" "c" "b" "" "X" "x1") [])
    as (params & p & ok & Hcalls & _ & Hpath & Hfile & _).
  - vm_compute. reflexivity.
  - exists params, p, ok. split; [exact Hcalls |].
    split; [rewrite Hpath | rewrite Hfile]; vm_compute; reflexivity.
Defined.

(** ** Links *)

Lemma classify_link (m : UuidMap) (item : Toc) (ty : jsstring) :
  type item = Some ty -> toLocaleLowerCase ty = link_tag ->
  m !! uuid item = None ->
  classify m item = ContainerLike link_tag.
Proof.
  intros Hty Hlow Hm. unfold classify. rewrite Hty, Hm, Hlow.
  unfold isContainer. rewrite (bool_decide_eq_true_2 (link_tag = link_tag)) by done.
  by rewrite orb_true_r.
Qed.

(** A container-like entry that is not a link gets its directory made
    and its progress recorded with flag [true]. *)
Lemma directory_entry_made w fuel env st item itemType lists h :
  classify (uuidMap st) item = ContainerLike itemType ->
  itemType <> link_tag ->
  ancestorWalk fuel (uuidMap st) item [] [] = Some lists ->
  w h (Mkdir (env_bookPath env ++ slash ++ join slash (fst lists))) = None ->
  fst (loopBody w fuel env st item h)
  = [Mkdir (env_bookPath env ++ slash ++ join slash (fst lists));
     UpdateProgress (dirItem item lists) true].
Proof.
  intros Hcl Hne Hwalk Hmk. unfold loopBody. rewrite Hcl.
  rewrite (containerBranch_dir _ _ _ _ _ _ lists) by done.
  by rewrite Hmk.
Qed.

(** ** The ancestor walk *)

Lemma ancestorWalk_chain (m : UuidMap) (t : Toc) (l : list Toc) :
  AncestorChain m t l ->
  forall fuel titles ids,
    length l <= fuel ->
    ancestorWalk fuel m t titles ids
    = Some (titlesOf l ++ titles, map uuid l ++ ids).
Proof.
  induction 1 as [t Hnone | t p l Hp Hchain IH]; intros fuel titles ids Hfuel.
  - destruct fuel as [|fuel]; [simpl in Hfuel; lia |].
    simpl. by rewrite Hnone.
  - rewrite length_app in Hfuel. simpl in Hfuel.
    destruct fuel as [|fuel]; [lia |].
    simpl. rewrite Hp, IH by lia.
    unfold titlesOf. by rewrite !map_app, <- !app_assoc.
Qed.

Lemma AncestorChain_shape (m : UuidMap) (t : Toc) (l : list Toc) :
  AncestorChain m t l ->
  exists ancestors,
    l = ancestors ++ [t] /\
    Forall (fun a => exists k p, m !! k = Some p /\ toc p = a) ancestors /\
    (exists root, head l = Some root /\ m !! parent_uuid root = None).
Proof.
  induction 1 as [t Hnone | t p l Hp Hchain (anc & -> & Hanc & root & Hroot & Hr)].
  - exists []. repeat split; [constructor |]. by exists t.
  - exists (anc ++ [toc p]). repeat split.
    + apply Forall_app. split; [done |]. constructor; [| constructor].
      by exists (parent_uuid t), p.
    + exists root. split; [| done].
      destruct anc; simpl in *; done.
Qed.

Lemma ranked_chain (rank : jsstring -> nat) (m : UuidMap) :
  keyed m -> ranked rank m ->
  forall n t, (rank (parent_uuid t) <= n)%nat ->
    exists l, AncestorChain m t l /\ (length l <= S (rank (parent_uuid t)))%nat.
Proof.
  intros Hkey Hrank. induction n as [|n IH]; intros t Hn.
  - destruct (m !! parent_uuid t) as [p|] eqn:Hp.
    + apply Hrank in Hp. lia.
    + exists [t]. split; [by constructor | simpl; lia].
  - destruct (m !! parent_uuid t) as [p|] eqn:Hp.
    + pose proof (Hrank _ _ Hp) as Hlt. pose proof (Hkey _ _ Hp) as Hk.
      destruct (IH (toc p)) as (l & Hl & Hlen); [lia |].
      exists (l ++ [t]). split; [by econstructor |].
      rewrite length_app. simpl. lia.
    + exists [t]. split; [by constructor | simpl; lia].
Qed.

Lemma ancestorWalk_orphan (m : UuidMap) (item : Toc) (fuel : nat) :
  m !! parent_uuid item = None -> 1 <= fuel ->
  ancestorWalk fuel m item [] [] = Some ([fixPath (title item)], [uuid item]).
Proof.
  intros Hnone Hfuel. destruct fuel as [|fuel]; [lia |].
  simpl. by rewrite Hnone.
Qed.

(** C4, as the code has it.  An entry whose parent is not in the index
    gets, after one iteration, the path that consists of itself.  When
    the parent links of the index have no cycle, the walk from any entry
    terminates: there is a chain of entries, ending in the entry itself,
    such that every amount of fuel not below the length of the chain
    makes the walk return the sanitized titles and the uuids of the
    chain.  The chain is not longer than one more than the rank of the
    entry's parent; all its entries but the last are entries of the
    index; it starts at the first entry whose parent is not in the
    index. *)
Theorem ancestorWalk_terminates (rank : jsstring -> nat) (m : UuidMap)
    (item : Toc) :
  (m !! parent_uuid item = None ->
   forall fuel, 1 <= fuel ->
     ancestorWalk fuel m item [] []
     = Some ([fixPath (title item)], [uuid item])) /\
  (keyed m -> ranked rank m ->
   exists chain ancestors,
     chain = ancestors ++ [item] /\
     length chain <= S (rank (parent_uuid item)) /\
     (forall fuel, length chain <= fuel ->
        ancestorWalk fuel m item [] []
        = Some (titlesOf chain, map uuid chain)) /\
     Forall (fun a => exists k p, m !! k = Some p /\ toc p = a) ancestors /\
     (exists root, head chain = Some root /\ m !! parent_uuid root = None)).
Proof.
  split; [intros Hnone fuel Hfuel; by apply ancestorWalk_orphan |].
  intros Hkey Hrank.
  destruct (ranked_chain rank m Hkey Hrank _ item (Nat.le_refl _))
    as (l & Hchain & Hlen).
  destruct (AncestorChain_shape _ _ _ Hchain) as (anc & Hl & Hanc & Hroot).
  exists l, anc. split; [done |]. split; [done |].
  split; [| done].
  intros fuel Hfuel.
  rewrite (ancestorWalk_chain _ _ _ Hchain) by done.
  by rewrite !app_nil_r.
Qed.

Lemma introIndex_lookup (k : jsstring) (p : IProgressItem) :
  introIndex !! k = Some p ->
  k = js "1" /\ p = dirItem introEntry ([js "Intro"], [js "1"]).
Proof.
  change introIndex
    with (<[js "1" := dirItem introEntry ([js "Intro"], [js "1"])]>
            (∅ : UuidMap)).
  intros [[<- <-] | [_ Hempty]]%lookup_insert_Some; [done |].
  by rewrite lookup_empty in Hempty.
Qed.

Lemma ancestorWalk_terminates_witness :
  exists chain,
    ancestorWalk 2 introIndex partEntry [] []
    = Some (titlesOf chain, map uuid chain).
Proof.
  destruct (ancestorWalk_terminates (fun k => length k) introIndex partEntry)
    as [_ Hwalk].
  destruct Hwalk as (chain & _ & _ & Hlen & Hfuel & _).
  - intros k p [-> ->]%introIndex_lookup. reflexivity.
  - intros k p [-> ->]%introIndex_lookup. simpl. lia.
  - exists chain. apply Hfuel. exact Hlen.
Defined.

Lemma cycleIndex_lookup :
  cycleIndex !! js "a" = Some (dirItem selfParent ([js "A"], [js "a"])).
Proof. vm_compute. reflexivity. Qed.

Lemma ancestorWalk_selfParent (fuel : nat) (titles ids : list jsstring) :
  ancestorWalk fuel cycleIndex selfParent titles ids = None.
Proof.
  revert titles ids. induction fuel as [|fuel IH]; intros titles ids; [done |].
  cbn [ancestorWalk].
  change (parent_uuid selfParent) with (js "a").
  rewrite cycleIndex_lookup. apply IH.
Qed.

Lemma ancestorWalk_childOfSelf (fuel : nat) :
  ancestorWalk fuel cycleIndex childOfSelf [] [] = None.
Proof.
  destruct fuel as [|fuel]; [done |]. cbn [ancestorWalk].
  change (parent_uuid childOfSelf) with (js "a").
  rewrite cycleIndex_lookup. apply ancestorWalk_selfParent.
Qed.

Lemma cycle_first_step (n : nat) :
  loopBody quiet (S n) demoEnv emptyState selfParent [] =
    ([Mkdir (js "download/Demo/A");
      UpdateProgress (dirItem selfParent ([js "A"], [js "a"])) true],
     Return cycleState).
Proof.
  unfold loopBody.
  assert (classify (uuidMap emptyState) selfParent = ContainerLike title_tag)
    as -> by (vm_compute; reflexivity).
  rewrite (containerBranch_dir _ _ _ _ _ _ ([js "A"], [js "a"]));
    [reflexivity | discriminate | reflexivity].
Qed.

Lemma cycle_second_step (fuel : nat) (h : list Event) :
  loopBody quiet fuel demoEnv cycleState childOfSelf h = ([], Diverge).
Proof.
  unfold loopBody.
  assert (classify (uuidMap cycleState) childOfSelf = ContainerLike title_tag)
    as -> by (vm_compute; reflexivity).
  apply containerBranch_diverge.
  change (uuidMap cycleState) with cycleIndex.
  apply ancestorWalk_childOfSelf.
Qed.

(** The walk for the child of a self-parented entry does not terminate:
    no amount of fuel makes it return, and the loop over the two entries
    never gets past the second. *)
Lemma ancestor_walk_cycle :
  cycleIndex = uuidMap cycleState /\
  ~ (exists fuel lists,
        ancestorWalk fuel cycleIndex childOfSelf [] [] = Some lists) /\
  ~ (exists fuel evs st,
        forLoop quiet fuel demoEnv [selfParent; childOfSelf] emptyState []
        = (evs, Return st)).
Proof.
  split; [reflexivity |]. split.
  - intros (fuel & lists & Hwalk).
    by rewrite ancestorWalk_childOfSelf in Hwalk.
  - intros (fuel & evs & st & Hloop).
    destruct fuel as [|n]; [vm_compute in Hloop; discriminate Hloop |].
    rewrite (forLoop_cons_return _ _ _ _ _ _ _ _ _ (cycle_first_step n)) in Hloop.
    simpl forLoop in Hloop.
    rewrite (bind_diverge _ _ _ [] (cycle_second_step _ _)) in Hloop.
    discriminate Hloop.
Qed.

(** ** Links, continued *)

Lemma ancestorWalk_returns (fuel : nat) (m : UuidMap) :
  forall t titles ids lists,
    ancestorWalk fuel m t titles ids = Some lists ->
    exists chain,
      AncestorChain m t chain /\ length chain <= fuel /\
      lists = (titlesOf chain ++ titles, map uuid chain ++ ids).
Proof.
  induction fuel as [|fuel IH]; intros t titles ids lists; [done |].
  cbn [ancestorWalk].
  destruct (m !! parent_uuid t) as [p|] eqn:Hp.
  - intros (chain & Hchain & Hlen & ->)%IH.
    exists (chain ++ [t]). split; [by econstructor |].
    split; [rewrite length_app; simpl; lia |].
    unfold titlesOf. by rewrite !map_app, <- !app_assoc.
  - intros [= <-]. exists [t]. split; [by constructor |].
    split; [simpl; lia | done].
Qed.

(** C7, as the code has it.  For an entry whose lowercased type is
    [link] the loop body never calls [mkdir].  When the walk from the
    entry ends, that is when the entry has a chain of registered
    ancestors, the body makes one call, the progress update with flag
    [false], for every amount of fuel not below the length of the
    chain; it counts a warning and appends the entry's progress item to
    the warning list, from which the report after the loop prints path
    and url.  The path of the item is made of the sanitized titles of
    the chain, the entry's own last, joined by slashes.  The body puts
    the item into the index under the entry's uuid and leaves every
    other key of the index as it was.  Without a chain within the fuel
    the body makes no call and does not return.  When the parent links
    of the index have no cycle there is a chain. *)
Theorem link_entry_warned (rank : jsstring -> nat) w env st item ty :
  type item = Some ty ->
  toLocaleLowerCase ty = link_tag ->
  uuidMap st !! uuid item = None ->
  (forall fuel h ev dir,
     ev ∈ fst (loopBody w fuel env st item h) -> ev <> Mkdir dir) /\
  (forall chain,
     AncestorChain (uuidMap st) item chain ->
     let lists := (titlesOf chain, map uuid chain) in
     let p := dirItem item lists in
     let st' := afterContainer st item link_tag lists in
     (forall fuel h,
        length chain <= fuel ->
        loopBody w fuel env st item h =
          ([UpdateProgress p false],
           match w h (UpdateProgress p false) with
           | None => Return st'
           | Some m => Throw m
           end)) /\
     path p = join slash (titlesOf chain) /\
     last (titlesOf chain) = Some (fixPath (title item)) /\
     toc p = item /\
     warnArticleCount st' = S (warnArticleCount st) /\
     warnArticleInfo st' = warnArticleInfo st ++ [p] /\
     Log (LogLinkItem (path p) (url item)) ∈ linkReport st' /\
     uuidMap st' !! uuid item = Some p /\
     (forall k, k <> uuid item -> uuidMap st' !! k = uuidMap st !! k)) /\
  (forall fuel h,
     (forall chain,
        AncestorChain (uuidMap st) item chain -> fuel < length chain) ->
     loopBody w fuel env st item h = ([], Diverge)) /\
  (keyed (uuidMap st) -> ranked rank (uuidMap st) ->
   exists chain,
     AncestorChain (uuidMap st) item chain /\
     length chain <= S (rank (parent_uuid item))).
Proof.
  intros Hty Hlow Hfresh.
  pose proof (classify_link _ _ _ Hty Hlow Hfresh) as Hcl.
  split; [| split; [| split]].
  - intros fuel h ev dir. unfold loopBody. rewrite Hcl.
    destruct (ancestorWalk fuel (uuidMap st) item [] []) as [lists|] eqn:Hw.
    + rewrite (containerBranch_link _ _ _ _ _ lists) by done. simpl.
      intros ->%list_elem_of_singleton. done.
    + rewrite containerBranch_diverge by done. simpl.
      intros []%not_elem_of_nil.
  - intros chain Hchain lists p st'.
    split.
    { intros fuel h Hfuel. unfold loopBody. rewrite Hcl.
      apply containerBranch_link.
      rewrite (ancestorWalk_chain _ _ _ Hchain) by done.
      by rewrite !app_nil_r. }
    split; [reflexivity |].
    split.
    { destruct (AncestorChain_shape _ _ _ Hchain) as (anc & -> & _).
      unfold titlesOf. rewrite map_app. cbn [map]. apply last_snoc. }
    split; [reflexivity |].
    assert (warnArticleInfo st' = warnArticleInfo st ++ [p]) as Hinfo.
    { unfold st', afterContainer.
      by rewrite (bool_decide_eq_true_2 (link_tag = link_tag)). }
    assert (warnArticleCount st' = S (warnArticleCount st)) as Hcount.
    { unfold st', afterContainer.
      by rewrite (bool_decide_eq_true_2 (link_tag = link_tag)). }
    split; [exact Hcount |]. split; [exact Hinfo |].
    split.
    { unfold linkReport. rewrite Hcount, Hinfo. simpl.
      apply elem_of_cons. right. rewrite map_app. simpl.
      apply elem_of_app. right. apply list_elem_of_singleton. reflexivity. }
    unfold st'. rewrite afterContainer_index.
    split; [apply lookup_insert_eq |].
    intros k Hk. by rewrite lookup_insert_ne.
  - intros fuel h Hnone. unfold loopBody. rewrite Hcl.
    apply containerBranch_diverge.
    destruct (ancestorWalk fuel (uuidMap st) item [] []) as [lists|] eqn:Hw;
      [| done].
    apply ancestorWalk_returns in Hw as (chain & Hchain & Hlen & _).
    specialize (Hnone chain Hchain). lia.
  - intros Hkey Hrank.
    apply (ranked_chain rank (uuidMap st) Hkey Hrank _ item (Nat.le_refl _)).
Qed.

Lemma link_entry_warned_witness :
  loopBody quiet 5 demoEnv emptyState siteEntry [] =
    ([UpdateProgress (dirItem siteEntry ([js "Site"], [js "3"])) false],
     Return (afterContainer emptyState siteEntry link_tag ([js "Site"], [js "3"]))).
Proof.
  destruct (link_entry_warned uuidRank quiet demoEnv emptyState siteEntry
              (js "LINK"))
    as (_ & Hlink & _ & _); [reflexivity | reflexivity | apply lookup_empty |].
  destruct (Hlink [siteEntry]) as [Hstep _];
    [constructor; apply lookup_empty |].
  apply (Hstep 5 []). simpl. lia.
Defined.

Lemma ancestorWalk_linkOfSelf (fuel : nat) :
  ancestorWalk fuel cycleIndex linkOfSelf [] [] = None.
Proof.
  destruct fuel as [|fuel]; [done |]. cbn [ancestorWalk].
  change (parent_uuid linkOfSelf) with (js "a").
  rewrite cycleIndex_lookup. apply ancestorWalk_selfParent.
Qed.

Lemma link_below_cycle_step (fuel : nat) (h : list Event) :
  loopBody quiet fuel demoEnv cycleState linkOfSelf h = ([], Diverge).
Proof.
  unfold loopBody.
  assert (classify (uuidMap cycleState) linkOfSelf = ContainerLike link_tag)
    as -> by (vm_compute; reflexivity).
  apply containerBranch_diverge.
  change (uuidMap cycleState) with cycleIndex.
  apply ancestorWalk_linkOfSelf.
Qed.

(** Two runs of the loop over a link.  A link below an
    entry that names itself as its parent is never warned of: the walk
    for it does not end, so the loop over the two entries never returns
    and its calls are those of the first entry.  And the directory of a
    link comes to exist when a title names the link as its parent: the
    recursive [mkdir] for the title makes it on the way. *)
Lemma link_below_cycle :
  classify (uuidMap cycleState) linkOfSelf = ContainerLike link_tag /\
  ~ (exists fuel evs st,
        forLoop quiet fuel demoEnv [selfParent; linkOfSelf] emptyState []
        = (evs, Return st)) /\
  ~ (exists fuel p ok,
        UpdateProgress p ok
        ∈ fst (forLoop quiet fuel demoEnv [selfParent; linkOfSelf]
                 emptyState []) /\
        toc p = linkOfSelf) /\
  fst (forLoop quiet 5 demoEnv [siteEntry; underSite] emptyState [])
  = [UpdateProgress (dirItem siteEntry ([js "Site"], [js "3"])) false;
     Mkdir (js "download/Demo/Site/Part");
     UpdateProgress
       (dirItem underSite ([js "Site"; js "Part"], [js "3"; js "6"])) true] /\
  path (dirItem siteEntry ([js "Site"], [js "3"])) = js "Site" /\
  js "download/Demo/Site"
  ∈ dirsAfter ∅ (fst (forLoop quiet 5 demoEnv [siteEntry; underSite]
                        emptyState [])).
Proof.
  assert (forall fuel,
            forLoop quiet fuel demoEnv [selfParent; linkOfSelf] emptyState []
            = (match fuel with
               | O => []
               | S _ => [Mkdir (js "download/Demo/A");
                         UpdateProgress
                           (dirItem selfParent ([js "A"], [js "a"])) true]
               end, Diverge)) as Hrun.
  { intros [|n]; [vm_compute; reflexivity |].
    cbn [forLoop].
    rewrite (bind_return _ _ _ _ _ (cycle_first_step n)).
    rewrite (bind_diverge _ _ _ [] (link_below_cycle_step _ _)).
    cbn [fst snd]. by rewrite app_nil_r. }
  split; [vm_compute; reflexivity |]. split; [| split].
  - intros (fuel & evs & st & Hloop). rewrite Hrun in Hloop.
    discriminate Hloop.
  - intros (fuel & p & ok & Hin & Htoc). rewrite Hrun in Hin.
    destruct fuel as [|n]; cbn [fst] in Hin.
    + by apply not_elem_of_nil in Hin.
    + apply elem_of_cons in Hin as [Hin | Hin]; [discriminate Hin |].
      apply list_elem_of_singleton in Hin. injection Hin as -> _.
      discriminate Htoc.
  - split; [vm_compute; reflexivity |]. split; [reflexivity |].
    vm_compute. reflexivity.
Qed.

(** The loop keeps the index keyed, and ranked when the entries are. *)
Lemma nextIndex_keyed (fuel : nat) (m : UuidMap) (item : Toc) :
  keyed m -> keyed (nextIndex fuel m item).
Proof.
  intros Hkey. unfold nextIndex.
  destruct (classify m item); try done.
  - destruct (ancestorWalk fuel m item [] []) as [lists|]; [| done].
    intros k p [[<- <-] | [_ Hp]]%lookup_insert_Some; [done | by apply Hkey].
  - intros k p [[<- <-] | [_ Hp]]%lookup_insert_Some; [done | by apply Hkey].
Qed.

Lemma nextIndex_ranked (rank : jsstring -> nat) (fuel : nat) (m : UuidMap)
    (item : Toc) :
  ranked rank m -> rank (parent_uuid item) < rank (uuid item) ->
  ranked rank (nextIndex fuel m item).
Proof.
  intros Hrank Hitem. unfold nextIndex.
  destruct (classify m item); try done.
  - destruct (ancestorWalk fuel m item [] []) as [lists|]; [| done].
    intros k p [[<- <-] | [_ Hp]]%lookup_insert_Some; [done | by apply Hrank].
  - intros k p [[<- <-] | [_ Hp]]%lookup_insert_Some; [done | by apply Hrank].
Qed.

Lemma loopBody_terminates (rank : jsstring -> nat) w fuel env st item h :
  keyed (uuidMap st) -> ranked rank (uuidMap st) ->
  rank (parent_uuid item) < fuel ->
  snd (loopBody w fuel env st item h) <> Diverge.
Proof.
  intros Hkey Hrank Hfuel.
  destruct (ranked_chain rank (uuidMap st) Hkey Hrank _ item (Nat.le_refl _))
    as (chain & Hchain & Hlen).
  pose proof (ancestorWalk_chain _ _ _ Hchain) as Hreturn.
  unfold loopBody.
  destruct (classify (uuidMap st) item) as [| |itemType| |]; try done.
  - unfold containerBranch. rewrite Hreturn by lia.
    unfold bind, updateProgress, bind, call, ret.
    destruct (bool_decide (itemType = link_tag)); simpl;
      repeat (destruct (w _ _); simpl); done.
  - rewrite articleBranch_eq. simpl. by destruct (w (h ++ _) _).
Qed.

(** X12.  The loop over entries without a parent cycle, in whatever order they
    come, never hangs in an ancestor walk. *)
Theorem forLoop_terminates (rank : jsstring -> nat) w fuel env items :
  Forall (fun e => rank (parent_uuid e) < rank (uuid e) /\
                   rank (parent_uuid e) < fuel) items ->
  forall st h,
    keyed (uuidMap st) -> ranked rank (uuidMap st) ->
    snd (forLoop w fuel env items st h) <> Diverge.
Proof.
  induction 1 as [|item rest [Hitem Hfuel] _ IH]; intros st h Hkey Hrank.
  - done.
  - simpl. unfold bind.
    destruct (loopBody w fuel env st item h) as [evs [st'| |]] eqn:Hstep.
    + destruct (forLoop w fuel env rest st' (h ++ evs)) as [evs' r] eqn:Hrest.
      simpl. apply loopBody_index in Hstep.
      specialize (IH st' (h ++ evs)). rewrite Hrest in IH. apply IH.
      * rewrite Hstep. by apply nextIndex_keyed.
      * rewrite Hstep. by apply nextIndex_ranked.
    + done.
    + pose proof (loopBody_terminates rank w fuel env st item h Hkey Hrank Hfuel)
        as Hnot. by rewrite Hstep in Hnot.
Qed.

(** ** Well-formed progress items *)

Lemma ancestorWalk_lists (fuel : nat) (m : UuidMap) :
  forall t titles ids ts us,
    ancestorWalk fuel m t titles ids = Some (ts, us) ->
    exists pt pu,
      ts = pt ++ fixPath (title t) :: titles /\
      us = pu ++ uuid t :: ids /\
      length pt = length pu.
Proof.
  induction fuel as [|fuel IH]; intros t titles ids ts us; [done |].
  simpl. destruct (m !! parent_uuid t) as [p|].
  - intros (pt & pu & -> & -> & Hlen)%IH.
    exists (pt ++ [fixPath (title (toc p))]), (pu ++ [uuid (toc p)]).
    rewrite <- !app_assoc, !length_app. simpl. by rewrite Hlen.
  - intros [= <- <-]. by exists [], [].
Qed.

Lemma dirItem_wellFormed (fuel : nat) (m : UuidMap) (item : Toc) lists :
  ancestorWalk fuel m item [] [] = Some lists ->
  wellFormed (dirItem item lists).
Proof.
  destruct lists as [ts us].
  intros (pt & pu & -> & -> & Hlen)%ancestorWalk_lists.
  unfold wellFormed, dirItem. simpl.
  rewrite !length_app, Hlen, last_snoc. done.
Qed.

Lemma articleItem_wellFormed (m : UuidMap) (item : Toc) :
  wellFormedIndex m -> wellFormed (articleItem m item).
Proof.
  intros Hm. unfold wellFormed, articleItem, preItemOf.
  destruct (m !! parent_uuid item) as [parent|] eqn:Hp; simpl.
  - destruct (Hm _ _ Hp) as (Hlen & _ & _).
    rewrite !length_app, Hlen, last_snoc. done.
  - done.
Qed.

Lemma nextIndex_wellFormed (fuel : nat) (m : UuidMap) (item : Toc) :
  wellFormedIndex m -> wellFormedIndex (nextIndex fuel m item).
Proof.
  intros Hm. unfold nextIndex.
  destruct (classify m item); try done.
  - destruct (ancestorWalk fuel m item [] []) as [lists|] eqn:Hw; [| done].
    apply map_Forall_insert_2; [| done]. by eapply dirItem_wellFormed.
  - apply map_Forall_insert_2; [| done]. by apply articleItem_wellFormed.
Qed.

Lemma loopBody_items_wellFormed w fuel env st item h :
  wellFormedIndex (uuidMap st) ->
  Forall wellFormed (progressItems (fst (loopBody w fuel env st item h))).
Proof.
  intros Hm. unfold loopBody.
  destruct (classify (uuidMap st) item) as [| |itemType| |];
    try (simpl; constructor).
  - destruct (ancestorWalk fuel (uuidMap st) item [] []) as [lists|] eqn:Hw.
    + pose proof (dirItem_wellFormed _ _ _ _ Hw) as Hwf.
      destruct (decide (itemType = link_tag)) as [-> | Hne].
      * rewrite (containerBranch_link _ _ _ _ _ lists) by done.
        simpl. constructor; [exact Hwf | constructor].
      * rewrite (containerBranch_dir _ _ _ _ _ _ lists) by done.
        destruct (w h _); simpl; [constructor |].
        constructor; [exact Hwf | constructor].
    + rewrite containerBranch_diverge by done. constructor.
  - rewrite articleBranch_eq. simpl.
    constructor; [by apply articleItem_wellFormed | constructor].
Qed.

(** C10.  Started from an index of well-formed items (the empty index of
    a first run is one), the loop hands only well-formed items to
    [updateProgress], and the index it leaves holds only well-formed
    items: title and uuid lists of equal length, the entry's own uuid
    last in the uuid list, and the path equal to the titles joined by a
    slash. *)
Theorem progress_items_well_formed w fuel env items st h :
  wellFormedIndex (uuidMap st) ->
  Forall wellFormed (progressItems (fst (forLoop w fuel env items st h))) /\
  (forall st', snd (forLoop w fuel env items st h) = Return st' ->
     wellFormedIndex (uuidMap st')).
Proof.
  revert st h. induction items as [|item rest IH]; intros st h Hm.
  - split; [constructor |]. by intros st' [= <-].
  - simpl. unfold bind.
    pose proof (loopBody_items_wellFormed w fuel env st item h Hm) as Hstep.
    destruct (loopBody w fuel env st item h) as [evs [st1| |]] eqn:Hbody;
      simpl in Hstep.
    + assert (wellFormedIndex (uuidMap st1)) as Hm1.
      { rewrite (loopBody_index _ _ _ _ _ _ _ _ Hbody).
        by apply nextIndex_wellFormed. }
      destruct (IH st1 (h ++ evs) Hm1) as [Hevs Hidx].
      destruct (forLoop w fuel env rest st1 (h ++ evs)) as [evs' r].
      simpl in *. split; [| done].
      unfold progressItems. rewrite omap_app. by apply Forall_app.
    + split; [done | done].
    + split; [done | done].
Qed.

Lemma progress_items_well_formed_witness :
  Forall wellFormed
    (progressItems (fst (forLoop quiet 3 demoEnv chainToc emptyState []))).
Proof.
  apply (progress_items_well_formed quiet 3 demoEnv chainToc emptyState []).
  apply map_Forall_empty.
Defined.

(** ** The run as a whole *)

Lemma loopBody_calls w fuel env st item h :
  Forall loopCall (fst (loopBody w fuel env st item h)).
Proof.
  unfold loopBody.
  destruct (classify (uuidMap st) item) as [| |itemType| |];
    try (simpl; constructor).
  - destruct (ancestorWalk fuel (uuidMap st) item [] []) as [lists|] eqn:Hw.
    + destruct (decide (itemType = link_tag)) as [-> | Hne].
      * rewrite (containerBranch_link _ _ _ _ _ lists) by done.
        simpl. by repeat constructor.
      * rewrite (containerBranch_dir _ _ _ _ _ _ lists) by done.
        destruct (w h _); simpl; by repeat constructor.
    + rewrite containerBranch_diverge by done. constructor.
  - rewrite articleBranch_eq. simpl. by repeat constructor.
Qed.

Lemma forLoop_calls w fuel env items st h :
  Forall loopCall (fst (forLoop w fuel env items st h)).
Proof.
  revert st h. induction items as [|item rest IH]; intros st h.
  - constructor.
  - simpl. unfold bind.
    pose proof (loopBody_calls w fuel env st item h) as Hstep.
    destruct (loopBody w fuel env st item h) as [evs [st1| |]]; simpl in Hstep;
      [| done | done].
    specialize (IH st1 (h ++ evs)).
    destruct (forLoop w fuel env rest st1 (h ++ evs)) as [evs' r].
    simpl in *. by apply Forall_app.
Qed.

Lemma genFileCalls_cons (ev : Event) (evs : list Event) :
  genFileCalls (ev :: evs)
  = match genFileCall ev with
    | Some call => call :: genFileCalls evs
    | None => genFileCalls evs
    end.
Proof. reflexivity. Qed.

Lemma genFileCalls_app (evs1 evs2 : list Event) :
  genFileCalls (evs1 ++ evs2) = genFileCalls evs1 ++ genFileCalls evs2.
Proof. apply omap_app. Qed.

Lemma genFileCalls_loop (evs : list Event) :
  Forall loopCall evs -> genFileCalls evs = [].
Proof.
  induction 1 as [|ev evs Hev _ IH]; [done |].
  rewrite genFileCalls_cons, IH. by destruct ev.
Qed.

Lemma genFileCalls_logs (evs : list Event) :
  Forall logCall evs -> genFileCalls evs = [].
Proof.
  induction 1 as [|ev evs Hev _ IH]; [done |].
  rewrite genFileCalls_cons, IH. by destruct ev.
Qed.

Lemma linkReport_logs (st : LoopState) : Forall logCall (linkReport st).
Proof.
  unfold linkReport. destruct (Nat.ltb 0 (warnArticleCount st)); [| constructor].
  constructor; [done |]. apply Forall_map, Forall_forall. done.
Qed.

Lemma errorReport_logs (st : LoopState) : Forall logCall (errorReport st).
Proof.
  unfold errorReport. destruct (Nat.ltb 0 (errArticleCount st)); [| constructor].
  constructor; [done |]. apply Forall_app. split; [| by repeat constructor].
  induction (errArticleInfo st) as [|e l IH]; simpl; by repeat constructor.
Qed.

Lemma main_checked w fuel options info prefix pb id tocs h :
  bookId info = Some id -> id <> 0%N ->
  tocList info = Some tocs -> tocs <> [] ->
  main w fuel options info prefix pb h
  = mainAfterChecks w fuel options info prefix pb id tocs h.
Proof.
  intros Hid Hnz Htoc Hne. unfold main. rewrite Hid, Htoc.
  destruct id; [done |]. by destruct tocs.
Qed.

Lemma main_unchecked w fuel options info prefix pb h :
  bookId info = None \/ bookId info = Some 0%N \/
  tocList info = None \/ tocList info = Some [] ->
  exists msg, main w fuel options info prefix pb h = ([], Throw msg).
Proof.
  unfold main. intros [-> | [-> | [-> | ->]]].
  - by eexists.
  - by eexists.
  - destruct (bookId info) as [[|?]|]; by eexists.
  - destruct (bookId info) as [[|?]|]; by eexists.
Qed.

Lemma mainAfterChecks_complete w fuel options info prefix pb id tocs :
  started w options info id tocs ->
  curr pb = length tocs ->
  mainAfterChecks w fuel options info prefix pb id tocs []
  = (startCalls options info id tocs ++
     (if bar pb then [BarStop] else []) ++
     [Log (LogDone (bookPathOf options (bookName info) id))],
     Return tt).
Proof.
  intros [Hmk Hinit] Hcurr.
  unfold mainAfterChecks, bind, call. simpl. rewrite Hmk. simpl.
  rewrite Hinit. rewrite Hcurr, Nat.eqb_refl.
  by destruct (bar pb).
Qed.

Lemma mainAfterChecks_loop w fuel options info prefix pb id tocs evs st :
  started w options info id tocs ->
  curr pb <> length tocs ->
  forLoop w fuel (envOf options info prefix id) tocs (initialState pb)
    (startCalls options info id tocs) = (evs, Return st) ->
  exists logs r,
    mainAfterChecks w fuel options info (Return prefix) pb id tocs []
    = (startCalls options info id tocs ++ evs ++
       linkReport st ++ errorReport st ++
       [GenFile (bookPathOf options (bookName info) id)
                (bookName info) (bookDesc info) (uuidMap st)] ++ logs, r) /\
    Forall logCall logs.
Proof.
  intros [Hmk Hinit] Hcurr Hloop.
  apply Nat.eqb_neq in Hcurr.
  unfold mainAfterChecks, bind at 1, call. simpl. rewrite Hmk.
  unfold bind at 1, call. simpl. rewrite Hinit, Hcurr.
  unfold bind at 1, settle. simpl.
  unfold bind at 1. unfold envOf, startCalls in Hloop. rewrite Hloop.
  unfold bind, emitAll, emit, emitAll, call, ret. simpl.
  destruct (w _ (GenFile _ _ _ _)) as [msg|].
  - exists [], (Throw msg). split; [| constructor].
    simpl. unfold startCalls. simpl. by rewrite <- ?app_assoc.
  - destruct (Nat.eqb (progressCurr st) (length tocs)); simpl.
    + exists [Log (LogSummary (bookPathOf options (bookName info) id));
              Log (LogDone (bookPathOf options (bookName info) id))],
             (Return tt).
      split; [| by repeat constructor].
      unfold startCalls. simpl. by rewrite <- ?app_assoc.
    + exists [Log (LogSummary (bookPathOf options (bookName info) id))],
             (Return tt).
      split; [| by repeat constructor].
      unfold startCalls. simpl. by rewrite <- ?app_assoc.
Qed.

Lemma bind_fst {A B} (m : M A) (k : A -> M B) h :
  fst (bind m k h)
  = fst (m h) ++
    match snd (m h) with
    | Return a => fst (k a (h ++ fst (m h)))
    | _ => []
    end.
Proof.
  unfold bind. destruct (m h) as [evs [a| |]]; simpl.
  - by destruct (k a (h ++ evs)).
  - by rewrite app_nil_r.
  - by rewrite app_nil_r.
Qed.

Lemma genFileCalls_bind {A B} (m : M A) (k : A -> M B) h :
  genFileCalls (fst (bind m k h))
  = genFileCalls (fst (m h)) ++
    match snd (m h) with
    | Return a => genFileCalls (fst (k a (h ++ fst (m h))))
    | _ => []
    end.
Proof.
  rewrite bind_fst, genFileCalls_app. by destruct (snd (m h)).
Qed.

Lemma mainAfterChecks_genFile_le w fuel options info prefix pb id tocs h :
  length (genFileCalls
            (fst (mainAfterChecks w fuel options info prefix pb id tocs h)))
  <= 1.
Proof.
  unfold mainAfterChecks.
  rewrite genFileCalls_bind. simpl. destruct (w h _); [simpl; lia |].
  rewrite genFileCalls_bind. simpl. destruct (w _ (ProgressInit _ _)); [simpl; lia |].
  destruct (Nat.eqb (curr pb) (length tocs)).
  { destruct (bar pb); simpl; lia. }
  rewrite genFileCalls_bind. unfold settle at 1 2. cbn [fst snd].
  change (genFileCalls []) with (@nil Event). rewrite app_nil_l.
  destruct prefix as [p| |]; [| simpl; lia | simpl; lia].
  rewrite genFileCalls_bind.
  rewrite (genFileCalls_loop _ (forLoop_calls _ _ _ _ _ _)). simpl.
  destruct (snd (forLoop _ _ _ _ _ _)) as [st| |]; [| simpl; lia | simpl; lia].
  rewrite genFileCalls_bind. simpl fst at 1. simpl snd.
  rewrite (genFileCalls_logs _ (linkReport_logs st)). simpl.
  rewrite genFileCalls_bind. simpl fst at 1. simpl snd.
  rewrite (genFileCalls_logs _ (errorReport_logs st)). simpl.
  rewrite genFileCalls_bind. simpl fst at 1. simpl snd.
  destruct (w _ (GenFile _ _ _ _)); [simpl; lia |].
  rewrite genFileCalls_bind. simpl.
  destruct (Nat.eqb (progressCurr st) (length tocs)); simpl; lia.
Qed.

(** C9, as the code has it.  No run calls the summary generator more
    than once.  A run that fails one of the two tests on [bookId] and
    [tocList] makes no call at all.  A run that finds every entry already
    done returns without calling the generator.  A run that enters the
    loop and whose loop returns calls the generator exactly once, after
    the calls of the loop and the two reports, and only logs after it.
    A run in which the pattern for the prefix of the article urls cannot
    be built stops before the loop and does not call the generator. *)
Theorem summary_generated_once w fuel options info prefix pb :
  let trace := fst (main w fuel options info prefix pb []) in
  length (genFileCalls trace) <= 1 /\
  (bookId info = None \/ bookId info = Some 0%N \/
   tocList info = None \/ tocList info = Some [] ->
   trace = [] /\
   exists msg, snd (main w fuel options info prefix pb []) = Throw msg) /\
  (forall id tocs,
     bookId info = Some id -> id <> 0%N ->
     tocList info = Some tocs -> tocs <> [] ->
     (curr pb = length tocs -> genFileCalls trace = []) /\
     (forall msg, prefix = Throw msg -> genFileCalls trace = []) /\
     (forall p evs st,
        started w options info id tocs ->
        curr pb <> length tocs ->
        prefix = Return p ->
        forLoop w fuel (envOf options info p id) tocs (initialState pb)
          (startCalls options info id tocs) = (evs, Return st) ->
        let summary :=
          GenFile (bookPathOf options (bookName info) id)
                  (bookName info) (bookDesc info) (uuidMap st) in
        exists logs,
          trace = startCalls options info id tocs ++ evs ++
                  linkReport st ++ errorReport st ++ [summary] ++ logs /\
          Forall logCall logs /\
          genFileCalls (startCalls options info id tocs ++ evs ++
                        linkReport st ++ errorReport st) = [] /\
          genFileCalls trace = [summary])).
Proof.
  intros trace. split; [| split].
  - unfold trace, main.
    destruct (bookId info) as [[|id]|]; [simpl; lia | | simpl; lia].
    destruct (tocList info) as [[|toc tocs]|]; [simpl; lia | | simpl; lia].
    apply mainAfterChecks_genFile_le.
  - intros Hbad. unfold trace.
    destruct (main_unchecked w fuel options info prefix pb [] Hbad) as [msg Hmain].
    rewrite Hmain. split; [done | by exists msg].
  - intros id tocs Hid Hnz Htoc Hne. unfold trace.
    rewrite (main_checked _ _ _ _ _ _ id tocs) by done.
    split.
    + intros Hcurr. unfold mainAfterChecks.
      rewrite genFileCalls_bind. simpl. destruct (w [] _); [done |].
      rewrite genFileCalls_bind. simpl.
      destruct (w _ (ProgressInit _ _)); [done |].
      rewrite Hcurr, Nat.eqb_refl. by destruct (bar pb).
    + split.
      { intros msg ->. unfold mainAfterChecks.
        rewrite genFileCalls_bind. simpl. destruct (w [] _); [done |].
        rewrite genFileCalls_bind. simpl.
        destruct (w _ (ProgressInit _ _)); [done |].
        destruct (Nat.eqb (curr pb) (length tocs)); [| done].
        by destruct (bar pb). }
      intros p evs st Hstart Hcurr -> Hloop.
      set (summary := GenFile (bookPathOf options (bookName info) id)
                        (bookName info) (bookDesc info) (uuidMap st)).
      destruct (mainAfterChecks_loop _ _ _ _ _ _ _ _ _ _ Hstart Hcurr Hloop)
        as (logs & r & Hmain & Hlogs).
      exists logs. rewrite Hmain. cbn [fst].
      assert (genFileCalls (startCalls options info id tocs ++ evs ++
                            linkReport st ++ errorReport st) = []) as Hbefore.
      { rewrite !genFileCalls_app.
        rewrite (genFileCalls_logs _ (linkReport_logs st)).
        rewrite (genFileCalls_logs _ (errorReport_logs st)).
        pose proof (forLoop_calls w fuel (envOf options info p id) tocs
                      (initialState pb) (startCalls options info id tocs))
          as Hcalls.
        rewrite Hloop in Hcalls. simpl in Hcalls.
        by rewrite (genFileCalls_loop _ Hcalls). }
      split; [done |]. split; [done |]. split; [done |].
      fold summary.
      set (before := startCalls options info id tocs ++ evs ++
                     linkReport st ++ errorReport st) in *.
      replace (startCalls options info id tocs ++ evs ++ linkReport st ++
               errorReport st ++ [summary] ++ logs)
        with (before ++ [summary] ++ logs)
        by (unfold before; by rewrite <- ?app_assoc).
      rewrite genFileCalls_app, Hbefore, genFileCalls_app.
      by rewrite (genFileCalls_logs _ Hlogs).
Qed.

Lemma summary_generated_once_witness :
  genFileCalls (fst (main quiet 5 demoOptions (demoInfo demoToc)
                       (Return demoPrefix) freshBar []))
  = [GenFile (js "download/Demo") (Some (js "Demo")) None (uuidMap demoState)].
Proof.
  destruct (summary_generated_once quiet 5 demoOptions (demoInfo demoToc)
              (Return demoPrefix) freshBar) as (_ & _ & Hrun).
  destruct (Hrun 7%N demoToc) as (_ & _ & Hloop); [done | done | done | done |].
  destruct (Hloop demoPrefix (fst demoLoop) demoState)
    as (logs & _ & _ & _ & Hcalls).
  - split; reflexivity.
  - simpl. lia.
  - reflexivity.
  - vm_compute. reflexivity.
  - exact Hcalls.
Defined.

(** A run that finds both entries done returns without a summary. *)
Lemma summary_skipped_when_complete :
  snd (main quiet 5 demoOptions (demoInfo demoToc) (Return demoPrefix)
         (doneBar 2) [])
  = Return tt /\
  genFileCalls
    (fst (main quiet 5 demoOptions (demoInfo demoToc) (Return demoPrefix)
            (doneBar 2) []))
  = [].
Proof. split; vm_compute; reflexivity. Qed.

(** The two sample scenarios of the spec.  With every call resolving,
    the run makes [download/Demo/Intro] and saves
    [download/Demo/Intro/Hello.md]; both entries are done and no error
    is counted.  When the download fails, the directory is still made,
    one error and no warning are counted, and both entries are done. *)
Example sample_scenario :
  exists dl st,
    forLoop quiet 5 demoEnv demoToc emptyState []
    = ([Mkdir (js "download/Demo/Intro");
        UpdateProgress (dirItem introEntry ([js "Intro"], [js "1"])) true;
        DownloadArticle dl;
        UpdateProgress (articleItem introIndex helloEntry) true], Return st) /\
    dl_saveFilePath dl = js "download/Demo/Intro/Hello.md" /\
    progressCurr st = 2 /\ errArticleCount st = 0 /\ warnArticleCount st = 0.
Proof.
  eexists _, _. split; [vm_compute; reflexivity |].
  repeat split; reflexivity.
Qed.

Example sample_failure_scenario :
  exists dl st,
    forLoop flaky 5 demoEnv demoToc emptyState []
    = ([Mkdir (js "download/Demo/Intro");
        UpdateProgress (dirItem introEntry ([js "Intro"], [js "1"])) true;
        DownloadArticle dl;
        UpdateProgress (articleItem introIndex helloEntry) false], Return st) /\
    progressCurr st = 2 /\ errArticleCount st = 1 /\ warnArticleCount st = 0 /\
    totalArticleCount st = 1.
Proof.
  eexists _, _. split; [vm_compute; reflexivity |].
  repeat split; reflexivity.
Qed.

(** ** A run that finds every entry done *)

Lemma dirPrefixes_self (seen rest : jsstring) :
  seen ++ rest ∈ dirPrefixes seen rest.
Proof.
  revert seen. induction rest as [|c rest IH]; intros seen; simpl.
  - rewrite app_nil_r. by apply list_elem_of_singleton.
  - apply elem_of_app. right.
    replace (seen ++ c :: rest) with ((seen ++ [c]) ++ rest)
      by (by rewrite <- app_assoc).
    apply IH.
Qed.

Lemma mkdirRecursive_elem (dir : jsstring) (dirs : gset jsstring) :
  dir ∈ mkdirRecursive dir dirs.
Proof.
  unfold mkdirRecursive. destruct (decide (dir ∈ dirs)); [done |].
  apply elem_of_union. right. apply elem_of_list_to_set.
  apply (dirPrefixes_self [] dir).
Qed.

Lemma mkdirRecursive_mono (dir d : jsstring) (dirs : gset jsstring) :
  d ∈ dirs -> d ∈ mkdirRecursive dir dirs.
Proof.
  intros Hd. unfold mkdirRecursive. destruct (decide (dir ∈ dirs)); [done |].
  apply elem_of_union. by left.
Qed.

Lemma dirsAfter_mono (evs : list Event) (dirs : gset jsstring) (d : jsstring) :
  d ∈ dirs -> d ∈ dirsAfter dirs evs.
Proof.
  revert dirs. induction evs as [|ev evs IH]; intros dirs Hd; [done |].
  destruct ev; simpl; try by apply IH.
  by apply IH, mkdirRecursive_mono.
Qed.

(** Every run that passes the two tests asks for the book's directory
    first. *)
Lemma mainAfterChecks_first_call w fuel options info prefix pb id tocs :
  exists rest,
    fst (mainAfterChecks w fuel options info prefix pb id tocs [])
    = Mkdir (bookPathOf options (bookName info) id) :: rest.
Proof. unfold mainAfterChecks. rewrite bind_fst. simpl. by eexists. Qed.

Lemma earlier_run_made_bookPath w1 fuel1 pb1 options info prefix id tocs dirs :
  bookId info = Some id -> id <> 0%N ->
  tocList info = Some tocs -> tocs <> [] ->
  bookPathOf options (bookName info) id
  ∈ dirsAfter dirs (fst (main w1 fuel1 options info prefix pb1 [])).
Proof.
  intros Hid Hnz Htoc Hne.
  rewrite (main_checked _ _ _ _ _ _ id tocs) by done.
  destruct (mainAfterChecks_first_call w1 fuel1 options info prefix pb1 id tocs)
    as [rest ->].
  simpl. apply dirsAfter_mono, mkdirRecursive_elem.
Qed.

Lemma complete_run_calls w fuel options info prefix pb id tocs dirs :
  bookId info = Some id -> id <> 0%N ->
  tocList info = Some tocs -> tocs <> [] ->
  started w options info id tocs ->
  curr pb = length tocs ->
  bookPathOf options (bookName info) id ∈ dirs ->
  let bookPath := bookPathOf options (bookName info) id in
  main w fuel options info prefix pb []
  = ([Mkdir bookPath; ProgressInit bookPath (length tocs)] ++
     (if bar pb then [BarStop] else []) ++ [Log (LogDone bookPath)],
     Return tt) /\
  progressItems (fst (main w fuel options info prefix pb [])) = [] /\
  diskWrites dirs (fst (main w fuel options info prefix pb [])) = [].
Proof.
  intros Hid Hnz Htoc Hne Hstart Hcurr Hdir bookPath.
  rewrite (main_checked _ _ _ _ _ _ id tocs) by done.
  rewrite mainAfterChecks_complete by done.
  fold bookPath. unfold startCalls. fold bookPath. cbn [fst].
  split; [reflexivity |]. split.
  - by destruct (bar pb).
  - simpl. destruct (decide (bookPath ∈ dirs)); [| done].
    by destruct (bar pb).
Qed.

(** C3.  Take an earlier run on the same source and output root that
    returned, and a second run that finds the completed count equal to
    the number of entries once its progress bar is initialised.  The
    second run returns normally after [mkdir] of the book's directory,
    [init()], stopping the bar and one log line: it does not enter the
    loop, makes no progress update, and on the disk as the earlier run
    left it none of its calls writes anything. *)
Theorem complete_run_is_idle w1 fuel1 pb1 w fuel options info prefix pb
    id tocs dirs :
  bookId info = Some id -> id <> 0%N ->
  tocList info = Some tocs -> tocs <> [] ->
  snd (main w1 fuel1 options info prefix pb1 []) = Return tt ->
  started w options info id tocs ->
  curr pb = length tocs ->
  let earlier := fst (main w1 fuel1 options info prefix pb1 []) in
  let bookPath := bookPathOf options (bookName info) id in
  main w fuel options info prefix pb []
  = ([Mkdir bookPath; ProgressInit bookPath (length tocs)] ++
     (if bar pb then [BarStop] else []) ++ [Log (LogDone bookPath)],
     Return tt) /\
  progressItems (fst (main w fuel options info prefix pb [])) = [] /\
  diskWrites (dirsAfter dirs earlier)
    (fst (main w fuel options info prefix pb [])) = [].
Proof.
  intros Hid Hnz Htoc Hne _ Hstart Hcurr earlier bookPath.
  apply (complete_run_calls w fuel options info prefix pb id tocs); try done.
  by apply (earlier_run_made_bookPath _ _ _ _ _ _ id tocs).
Qed.

Lemma complete_run_is_idle_witness :
  main quiet 5 demoOptions (demoInfo demoToc) (Return demoPrefix) (doneBar 2) []
  = ([Mkdir (js "download/Demo"); ProgressInit (js "download/Demo") 2;
      BarStop; Log (LogDone (js "download/Demo"))], Return tt) /\
  diskWrites
    (dirsAfter ∅ (fst (main quiet 5 demoOptions (demoInfo demoToc) (Return demoPrefix)
                         freshBar [])))
    (fst (main quiet 5 demoOptions (demoInfo demoToc) (Return demoPrefix) (doneBar 2) []))
  = [].
Proof.
  destruct (complete_run_is_idle quiet 5 freshBar quiet 5 demoOptions
              (demoInfo demoToc) (Return demoPrefix) (doneBar 2) 7%N demoToc ∅)
    as (Hrun & _ & Hdisk);
    [reflexivity | discriminate | reflexivity | discriminate
    | vm_compute; reflexivity | split; reflexivity | reflexivity |].
  split; [exact Hrun | exact Hdisk].
Defined.


(** ** Across runs, with the progress store of the spec *)

Lemma progressItems_app (evs1 evs2 : list Event) :
  progressItems (evs1 ++ evs2) = progressItems evs1 ++ progressItems evs2.
Proof. apply omap_app. Qed.

(** Every progress update advances the count by one. *)
Lemma loopBody_curr w fuel env st item h evs st' :
  loopBody w fuel env st item h = (evs, Return st') ->
  progressCurr st' = progressCurr st + length (progressItems evs).
Proof.
  unfold loopBody.
  destruct (classify (uuidMap st) item) as [| |itemType| |];
    try (intros [= <- <-]; simpl; lia).
  - destruct (ancestorWalk fuel (uuidMap st) item [] []) as [lists|] eqn:Hw.
    + destruct (decide (itemType = link_tag)) as [-> | Hne].
      * rewrite (containerBranch_link _ _ _ _ _ lists) by done.
        destruct (w h _); [done |]. intros [= <- <-].
        unfold afterContainer. simpl. lia.
      * rewrite (containerBranch_dir _ _ _ _ _ _ lists) by done.
        destruct (w h _); [done |].
        destruct (w (h ++ _) _); [done |]. intros [= <- <-].
        unfold afterContainer.
        destruct (bool_decide (itemType = link_tag)); simpl; lia.
    + by rewrite containerBranch_diverge.
  - rewrite articleBranch_eq.
    destruct (w (h ++ _) _); [done |]. intros [= <- <-].
    unfold afterArticle. destruct (w h _); simpl; lia.
Qed.

Lemma forLoop_curr w fuel env items st h evs st' :
  forLoop w fuel env items st h = (evs, Return st') ->
  progressCurr st' = progressCurr st + length (progressItems evs).
Proof.
  revert st h evs. induction items as [|item rest IH]; intros st h evs.
  - intros [= <- <-]. simpl. lia.
  - simpl. intros (e1 & s1 & e2 & H1 & H2 & ->)%bind_inv_return.
    apply loopBody_curr in H1. apply IH in H2.
    rewrite progressItems_app, length_app. lia.
Qed.

(** A run that starts from the store and returns leaves a store as long
    as the count that its last test reads. *)
Lemma restore_persisted_curr w fuel env items store h evs st :
  forLoop w fuel env items (initialState (restore store)) h = (evs, Return st) ->
  curr (restore (persisted store evs)) = progressCurr st.
Proof.
  intros Hloop%forLoop_curr. simpl in *.
  unfold persisted. rewrite length_app. lia.
Qed.

(** An item that an earlier run appended to the store, be it with flag
    [false], keeps its entry from being visited in the next run. *)
Theorem stored_entry_skipped w fuel env store earlier p item items h evs st :
  p ∈ persisted store earlier ->
  uuid item = uuid (toc p) ->
  forLoop w fuel env items (initialState (restore (persisted store earlier))) h
  = (evs, Return st) ->
  forall h', loopBody w fuel env st item h' = ([], Return st).
Proof.
  intros Hin Huuid Hloop.
  apply (replayed_entry_skipped w fuel env (restore (persisted store earlier))
           p item items h evs st); [| exact Hin | exact Huuid | exact Hloop].
  simpl. destruct (persisted store earlier); [by inversion Hin | done].
Qed.

(** The article of the sample scenario, its download having failed in a
    first run that was then interrupted, is skipped by the next run. *)
Example failed_article_not_retried :
  let earlier := fst (forLoop flaky 5 demoEnv demoToc emptyState []) in
  let pb := restore (persisted [] earlier) in
  UpdateProgress (articleItem introIndex helloEntry) false ∈ earlier /\
  loopBody quiet 5 demoEnv (initialState pb) helloEntry [] =
    ([], Return (initialState pb)).
Proof.
  intros earlier pb. split.
  - vm_compute. do 3 right. left.
  - apply (stored_entry_skipped quiet 5 demoEnv [] earlier
             (articleItem introIndex helloEntry) helloEntry [] [] []
             (initialState pb));
      [| reflexivity | reflexivity].
    vm_compute. right. left.
Qed.

(** A second run after a run that left the store as long as the list of
    entries returns early and writes nothing. *)
Theorem second_run_is_idle w1 fuel1 w fuel options info prefix store
    id tocs dirs :
  bookId info = Some id -> id <> 0%N ->
  tocList info = Some tocs -> tocs <> [] ->
  let earlier := fst (main w1 fuel1 options info prefix (restore store) []) in
  let pb := restore (persisted store earlier) in
  length (persisted store earlier) = length tocs ->
  started w options info id tocs ->
  snd (main w fuel options info prefix pb []) = Return tt /\
  progressItems (fst (main w fuel options info prefix pb [])) = [] /\
  diskWrites (dirsAfter dirs earlier)
    (fst (main w fuel options info prefix pb [])) = [].
Proof.
  intros Hid Hnz Htoc Hne earlier pb Hlen Hstart.
  assert (curr pb = length tocs) as Hcurr by exact Hlen.
  pose proof (earlier_run_made_bookPath w1 fuel1 (restore store) options info
                prefix id tocs dirs Hid Hnz Htoc Hne) as Hdir.
  destruct (complete_run_calls w fuel options info prefix pb id tocs
              (dirsAfter dirs earlier) Hid Hnz Htoc Hne Hstart Hcurr Hdir)
    as (Hrun & Hitems & Hdisk).
  split; [by rewrite Hrun | done].
Qed.

(** The sample scenario run twice from an empty store. *)
Example second_run_of_sample :
  let earlier :=
    fst (main quiet 5 demoOptions (demoInfo demoToc) (Return demoPrefix) (restore []) []) in
  main quiet 5 demoOptions (demoInfo demoToc) (Return demoPrefix)
    (restore (persisted [] earlier)) []
  = ([Mkdir (js "download/Demo"); ProgressInit (js "download/Demo") 2;
      BarStop; Log (LogDone (js "download/Demo"))], Return tt).
Proof. vm_compute. reflexivity. Qed.

(** * Further properties *)

(** ** The path sanitizer, continued *)

Lemma replaceIllegal_clean (s : jsstring) : illegalFree (replaceIllegal s).
Proof.
  unfold illegalFree, replaceIllegal. apply Forall_map, Forall_forall.
  intros c _. simpl. by destruct (dirNameReg c) eqn:Hc.
Qed.

Lemma removeFirstSpace_Forall (P : N -> Prop) (s : jsstring) :
  Forall P s -> Forall P (removeFirstSpace s).
Proof.
  induction 1 as [|c s Hc Hs IH]; cbn [removeFirstSpace]; [constructor |].
  destruct (whitespace c); [done | by constructor].
Qed.

Lemma fixPath_illegalFree (s : jsstring) : illegalFree (fixPath s).
Proof.
  unfold fixPath. destruct (negb (truthy s)); [constructor |].
  apply removeFirstSpace_Forall, replaceIllegal_clean.
Qed.

(** X1.  What [fixPath] returns holds none of the characters of [dirNameReg]:
    no slash and no backslash in particular. *)
Theorem fixPath_clean (s : jsstring) :
  illegalFree (fixPath s) /\ ~ 47%N ∈ fixPath s /\ ~ 92%N ∈ fixPath s.
Proof.
  pose proof (fixPath_illegalFree s) as Hclean.
  split; [exact Hclean |].
  split; intros Hin; by apply (proj1 (Forall_forall _ _) Hclean) in Hin.
Qed.

Lemma removeFirstSpace_length (s : jsstring) :
  length (removeFirstSpace s) <= length s <= S (length (removeFirstSpace s)).
Proof.
  induction s as [|c s IH]; cbn [removeFirstSpace]; [simpl; lia |].
  destruct (whitespace c); simpl; lia.
Qed.

(** X2.  [fixPath] drops at most one character and adds none. *)
Theorem fixPath_length (s : jsstring) :
  length (fixPath s) <= length s <= S (length (fixPath s)).
Proof.
  destruct s as [|c s]; [simpl; lia |].
  change (fixPath (c :: s)) with (removeFirstSpace (replaceIllegal (c :: s))).
  pose proof (removeFirstSpace_length (replaceIllegal (c :: s))) as H.
  assert (length (replaceIllegal (c :: s)) = length (c :: s)) as Hlen
    by apply length_map.
  lia.
Qed.

Lemma replaceIllegal_plain (s : jsstring) :
  illegalFree s -> replaceIllegal s = s.
Proof.
  induction 1 as [|c s Hc _ IH]; [done |].
  unfold replaceIllegal in *. simpl. by rewrite Hc, IH.
Qed.

Lemma removeFirstSpace_fixed (s : jsstring) :
  removeFirstSpace s = s <-> Forall (fun c => whitespace c = false) s.
Proof.
  split.
  - induction s as [|c s IH]; [constructor |].
    cbn [removeFirstSpace]. destruct (whitespace c) eqn:Hc.
    + intros Heq. apply (f_equal length) in Heq. simpl in Heq. lia.
    + intros [= Heq]. constructor; [done | by apply IH].
  - induction 1 as [|c s Hc _ IH]; [done |].
    cbn [removeFirstSpace]. by rewrite Hc, IH.
Qed.

Lemma replaceIllegal_fixed (s : jsstring) :
  replaceIllegal s = s -> illegalFree s.
Proof.
  induction s as [|c s IH]; [constructor |].
  unfold replaceIllegal in *. simpl. intros [= Hc Hs].
  constructor; [| by apply IH].
  destruct (dirNameReg c) eqn:Hd; [| done]. by subst c.
Qed.

(** X3.  [fixPath] returns its argument unchanged exactly when the argument
    holds no illegal character and no whitespace. *)
Theorem fixPath_fixed (s : jsstring) : fixPath s = s <-> plain s.
Proof.
  destruct s as [|c s]; [split; [constructor | done] |].
  change (fixPath (c :: s)) with (removeFirstSpace (replaceIllegal (c :: s))).
  split.
  - intros Heq.
    assert (length (removeFirstSpace (replaceIllegal (c :: s)))
            = length (replaceIllegal (c :: s))) as Hlen.
    { rewrite Heq. unfold replaceIllegal. by rewrite length_map. }
    assert (removeFirstSpace (replaceIllegal (c :: s)) = replaceIllegal (c :: s))
      as Hsame.
    { destruct (removeFirstSpace_spec (replaceIllegal (c :: s)))
        as [[_ H] | (pre & d & post & Ht & _ & _ & Hr)]; [done |].
      rewrite Hr, Ht, !length_app in Hlen. simpl in Hlen. lia. }
    rewrite Hsame in Heq.
    pose proof (replaceIllegal_fixed _ Heq) as Hclean.
    apply removeFirstSpace_fixed in Hsame. rewrite Heq in Hsame.
    unfold plain. apply Forall_forall. intros x Hx. split.
    + by apply (proj1 (Forall_forall _ _) Hclean).
    + by apply (proj1 (Forall_forall _ _) Hsame).
  - intros Hplain.
    assert (illegalFree (c :: s)) as Hclean
      by (eapply Forall_impl; [exact Hplain | by intros x [? _]]).
    rewrite (replaceIllegal_plain _ Hclean).
    apply removeFirstSpace_fixed.
    eapply Forall_impl; [exact Hplain | by intros x [_ ?]].
Qed.

(** ** The loop, continued *)

(** Whatever the world answers, the body makes a prefix of the calls of
    an unhindered pass; when it returns it has made them all. *)
Lemma loopBody_prefix w fuel env st item h :
  fst (loopBody w fuel env st item h) `prefix_of` bodyEvents w fuel env st item h.
Proof.
  unfold loopBody, bodyEvents.
  destruct (classify (uuidMap st) item) as [| |itemType| |]; try done.
  - destruct (ancestorWalk fuel (uuidMap st) item [] []) as [lists|] eqn:Hw.
    + unfold containerEvents.
      destruct (decide (itemType = link_tag)) as [-> | Hne].
      * rewrite (containerBranch_link _ _ _ _ _ lists) by done.
        by rewrite bool_decide_eq_true_2.
      * rewrite (containerBranch_dir _ _ _ _ _ _ lists) by done.
        rewrite bool_decide_eq_false_2 by done.
        destruct (w h _); simpl; [| done].
        by eexists [_].
    + by rewrite containerBranch_diverge.
  - by rewrite articleBranch_eq.
Qed.

Lemma loopBody_return w fuel env st item h evs st' :
  loopBody w fuel env st item h = (evs, Return st') ->
  evs = bodyEvents w fuel env st item h /\
  st' = bodyState w fuel env st item h.
Proof.
  unfold loopBody, bodyEvents, bodyState.
  destruct (classify (uuidMap st) item) as [| |itemType| |];
    try (by intros [= <- <-]).
  - destruct (ancestorWalk fuel (uuidMap st) item [] []) as [lists|] eqn:Hw.
    + unfold containerEvents.
      destruct (decide (itemType = link_tag)) as [-> | Hne].
      * rewrite (containerBranch_link _ _ _ _ _ lists) by done.
        rewrite bool_decide_eq_true_2 by done.
        destruct (w h _); [done |]. by intros [= <- <-].
      * rewrite (containerBranch_dir _ _ _ _ _ _ lists) by done.
        rewrite bool_decide_eq_false_2 by done.
        destruct (w h _); [done |].
        destruct (w (h ++ _) _); [done |]. by intros [= <- <-].
    + by rewrite containerBranch_diverge.
  - rewrite articleBranch_eq.
    destruct (w (h ++ _) _); [done |]. by intros [= <- <-].
Qed.

(** The two ways to carry a fact through the loop: a fact about the
    state that each pass keeps, and a fact about each call that holds
    in every state with the first fact. *)
Lemma forLoop_invariant (I : LoopState -> Prop) w fuel env :
  (forall st item h, I st -> I (bodyState w fuel env st item h)) ->
  forall items st h evs st',
    I st -> forLoop w fuel env items st h = (evs, Return st') -> I st'.
Proof.
  intros Hstep items. induction items as [|item rest IH]; intros st h evs st' Hst.
  - by intros [= _ <-].
  - simpl. intros (e1 & s1 & e2 & H1 & H2 & _)%bind_inv_return.
    apply loopBody_return in H1 as [_ ->].
    eapply IH; [| exact H2]. by apply Hstep.
Qed.

Lemma forLoop_calls_Forall (I : LoopState -> Prop) (Q : Event -> Prop)
    w fuel env :
  (forall st item h, I st -> I (bodyState w fuel env st item h)) ->
  (forall st item h, I st -> Forall Q (bodyEvents w fuel env st item h)) ->
  forall items st h,
    I st -> Forall Q (fst (forLoop w fuel env items st h)).
Proof.
  intros Hstate Hcalls items.
  induction items as [|item rest IH]; intros st h Hst; [constructor |].
  simpl. rewrite bind_fst.
  pose proof (loopBody_prefix w fuel env st item h) as [k Hk].
  pose proof (Hcalls st item h Hst) as Hall. rewrite Hk in Hall.
  apply Forall_app in Hall as [Hall _].
  apply Forall_app. split; [exact Hall |].
  destruct (loopBody w fuel env st item h) as [e1 [s1| |]] eqn:Hbody;
    simpl; [| constructor | constructor].
  apply IH. apply loopBody_return in Hbody as [_ ->]. by apply Hstate.
Qed.

Lemma bodyState_index w fuel env st item h :
  uuidMap (bodyState w fuel env st item h) = nextIndex fuel (uuidMap st) item.
Proof.
  unfold bodyState, nextIndex.
  destruct (classify (uuidMap st) item) as [| |itemType| |]; try done.
  - destruct (ancestorWalk fuel (uuidMap st) item [] []); [| done].
    apply afterContainer_index.
  - apply afterArticle_index.
Qed.

Lemma loadIndex_keyed (pb : ProgressBar) : keyed (loadIndex pb).
Proof.
  unfold loadIndex. destruct (isDownloadInterrupted pb); [| by intros k p].
  assert (keyed (∅ : UuidMap)) as Hempty by (by intros k p).
  revert Hempty. generalize (∅ : UuidMap) as m.
  induction (progressInfo pb) as [|q l IH]; intros m Hm; [done |].
  simpl. apply IH.
  intros k p [[<- <-] | [_ Hp]]%lookup_insert_Some; [done | by apply Hm].
Qed.

(** X4.  In a first run and in a resumed run alike, every item of the index
    that a completed loop leaves is stored under the uuid of its own
    entry. *)
Theorem run_index_keyed w fuel env pb items h evs st :
  forLoop w fuel env items (initialState pb) h = (evs, Return st) ->
  keyed (uuidMap st).
Proof.
  apply (forLoop_invariant (fun s => keyed (uuidMap s))).
  - intros s item h' Hs. rewrite bodyState_index. by apply nextIndex_keyed.
  - apply loadIndex_keyed.
Qed.

Lemma run_index_keyed_witness : keyed (uuidMap demoState).
Proof.
  apply (run_index_keyed quiet 5 (envOf demoOptions (demoInfo demoToc) demoPrefix 7%N)
           freshBar demoToc (startCalls demoOptions (demoInfo demoToc) 7%N demoToc)
           (fst demoLoop) demoState).
  vm_compute. reflexivity.
Defined.

(** ** Counters *)

Lemma progressItems_cons (ev : Event) (evs : list Event) :
  progressItems (ev :: evs)
  = match updatedItem ev with
    | Some p => p :: progressItems evs
    | None => progressItems evs
    end.
Proof. reflexivity. Qed.

Lemma downloads_app (evs1 evs2 : list Event) :
  downloads (evs1 ++ evs2) = downloads evs1 ++ downloads evs2.
Proof. apply omap_app. Qed.

Lemma failedUpdates_app (evs1 evs2 : list Event) :
  failedUpdates (evs1 ++ evs2) = failedUpdates evs1 ++ failedUpdates evs2.
Proof. apply omap_app. Qed.

Lemma body_accounted w fuel env st item h :
  accounted st (bodyState w fuel env st item h) (bodyEvents w fuel env st item h).
Proof.
  unfold accounted, bodyState, bodyEvents.
  destruct (classify (uuidMap st) item) as [| |itemType| |];
    try (simpl; lia).
  - destruct (ancestorWalk fuel (uuidMap st) item [] []) as [lists|];
      [| simpl; lia].
    unfold afterContainer, containerEvents.
    destruct (bool_decide (itemType = link_tag)); simpl; lia.
  - unfold afterArticle. destruct (w h _); simpl; lia.
Qed.

Lemma body_countsAgree w fuel env st item h :
  countsAgree st -> countsAgree (bodyState w fuel env st item h).
Proof.
  unfold countsAgree, bodyState. intros (He & Hw & Hle).
  destruct (classify (uuidMap st) item) as [| |itemType| |]; try done.
  - destruct (ancestorWalk fuel (uuidMap st) item [] []) as [lists|]; [| done].
    unfold afterContainer.
    destruct (bool_decide (itemType = link_tag)); simpl;
      rewrite ?length_app; simpl; lia.
  - unfold afterArticle. destruct (w h _); simpl;
      rewrite ?length_app; simpl; lia.
Qed.

Lemma forLoop_accounted w fuel env items st h evs st' :
  forLoop w fuel env items st h = (evs, Return st') -> accounted st st' evs.
Proof.
  revert st h evs. induction items as [|item rest IH]; intros st h evs.
  - intros [= <- <-]. unfold accounted. simpl. lia.
  - simpl. intros (e1 & s1 & e2 & H1 & H2 & ->)%bind_inv_return.
    apply loopBody_return in H1 as [-> ->].
    pose proof (body_accounted w fuel env st item h) as (Ht & Hf & Hc).
    apply IH in H2 as (Ht2 & Hf2 & Hc2).
    unfold accounted.
    rewrite downloads_app, failedUpdates_app, progressItems_app, !length_app.
    lia.
Qed.

(** X5.  When the loop of a run returns, the two counters are the lengths of
    the two lists, no more errors are counted than articles, the
    articles counted are the downloads asked for in this run, and the
    errors and warnings together are the progress updates made with
    flag [false]. *)
Theorem run_counts w fuel env pb items h evs st :
  forLoop w fuel env items (initialState pb) h = (evs, Return st) ->
  errArticleCount st = length (errArticleInfo st) /\
  warnArticleCount st = length (warnArticleInfo st) /\
  errArticleCount st <= totalArticleCount st /\
  totalArticleCount st = length (downloads evs) /\
  errArticleCount st + warnArticleCount st = length (failedUpdates evs).
Proof.
  intros Hloop.
  assert (countsAgree st) as (He & Hw & Hle).
  { revert Hloop. apply (forLoop_invariant countsAgree).
    - intros s item h'. apply body_countsAgree.
    - unfold countsAgree. simpl. lia. }
  apply forLoop_accounted in Hloop as (Ht & Hf & _). simpl in Ht, Hf.
  repeat split; try done.
Qed.

Lemma run_counts_witness :
  errArticleCount mixedState = length (errArticleInfo mixedState) /\
  warnArticleCount mixedState = length (warnArticleInfo mixedState) /\
  errArticleCount mixedState <= totalArticleCount mixedState /\
  totalArticleCount mixedState = length (downloads (fst mixedLoop)) /\
  errArticleCount mixedState + warnArticleCount mixedState
  = length (failedUpdates (fst mixedLoop)).
Proof.
  apply (run_counts flaky 5 demoEnv freshBar mixedToc [] (fst mixedLoop) mixedState).
  vm_compute. reflexivity.
Defined.

(** ** Each entry is disposed of once *)

Lemma body_update w fuel env st item h :
  progressItems (bodyEvents w fuel env st item h) = [] \/
  exists p,
    progressItems (bodyEvents w fuel env st item h) = [p] /\
    toc p = item /\
    uuidMap st !! uuid item = None /\
    uuidMap (bodyState w fuel env st item h) !! uuid item = Some p.
Proof.
  pose proof (classify_fresh (uuidMap st) item) as Hfresh.
  rewrite bodyState_index. unfold bodyEvents, nextIndex.
  destruct (classify (uuidMap st) item) as [| |itemType| |]; try by left.
  - destruct (ancestorWalk fuel (uuidMap st) item [] []) as [lists|];
      [| by left].
    right. exists (dirItem item lists). split.
    { unfold containerEvents. by destruct (bool_decide (itemType = link_tag)). }
    split; [done |]. split; [apply Hfresh; left; by eexists |].
    apply lookup_insert_eq.
  - right. exists (articleItem (uuidMap st) item).
    split; [done |]. split; [done |]. split; [apply Hfresh; by right |].
    apply lookup_insert_eq.
Qed.

Lemma progressItems_prefix (evs1 evs2 : list Event) :
  evs1 `prefix_of` evs2 -> progressItems evs1 `prefix_of` progressItems evs2.
Proof. intros [k ->]. rewrite progressItems_app. by eexists. Qed.

Lemma loopBody_update w fuel env st item h :
  progressItems (fst (loopBody w fuel env st item h)) = [] \/
  exists p,
    progressItems (fst (loopBody w fuel env st item h)) = [p] /\
    progressItems (bodyEvents w fuel env st item h) = [p] /\
    toc p = item /\
    uuidMap st !! uuid item = None /\
    uuidMap (bodyState w fuel env st item h) !! uuid item = Some p.
Proof.
  pose proof (progressItems_prefix _ _ (loopBody_prefix w fuel env st item h))
    as [k Hk].
  destruct (body_update w fuel env st item h)
    as [Hnil | (p & Hp & Htoc & Hnone & Hsome)].
  - left. rewrite Hnil in Hk. symmetry in Hk.
    by apply app_eq_nil in Hk as [-> _].
  - rewrite Hp in Hk.
    destruct (progressItems (fst (loopBody w fuel env st item h)))
      as [|q [|q' l]]; [by left | | done].
    right. exists p. simpl in Hk. injection Hk as <- _. by repeat split.
Qed.

(** X6.  No run updates the progress twice for one uuid, nor for a uuid that
    was in the index when the loop started, whatever the world answers
    and however the run ends. *)
Theorem run_updates_once w fuel env items st h :
  NoDup (updatedUuids (fst (forLoop w fuel env items st h))) /\
  Forall (fun k => uuidMap st !! k = None)
         (updatedUuids (fst (forLoop w fuel env items st h))).
Proof.
  revert st h. induction items as [|item rest IH]; intros st h.
  - split; constructor.
  - simpl. rewrite bind_fst. unfold updatedUuids.
    rewrite progressItems_app, map_app.
    destruct (loopBody w fuel env st item h) as [e1 [s1| |]] eqn:Hbody;
      cbn [fst snd].
    + destruct (IH s1 (h ++ e1)) as [Hnodup Hnew].
      pose proof Hbody as [-> ->]%loopBody_return.
      assert (uuidMap st ⊆ uuidMap (bodyState w fuel env st item h)) as Hsub
        by (rewrite bodyState_index; apply nextIndex_subseteq).
      assert (Forall (fun k => uuidMap st !! k = None)
                (updatedUuids (fst (forLoop w fuel env rest
                   (bodyState w fuel env st item h)
                   (h ++ bodyEvents w fuel env st item h))))) as Hold.
      { eapply Forall_impl; [exact Hnew |]. intros k Hk.
        exact (lookup_weaken_None _ _ _ Hk Hsub). }
      destruct (body_update w fuel env st item h)
        as [-> | (p & -> & Htoc & Hnone & Hsome)]; [done |].
      simpl. rewrite Htoc. split.
      * constructor; [| done]. intros Hin.
        apply (proj1 (Forall_forall _ _) Hnew) in Hin. congruence.
      * by constructor.
    + pose proof (loopBody_update w fuel env st item h) as Hup.
      rewrite Hbody in Hup. cbn [fst] in Hup. rewrite !app_nil_r.
      destruct Hup as [-> | (p & -> & _ & Htoc & Hnone & _)];
        [split; constructor |].
      simpl. rewrite Htoc. split; [apply NoDup_singleton | by repeat constructor].
    + pose proof (loopBody_update w fuel env st item h) as Hup.
      rewrite Hbody in Hup. cbn [fst] in Hup. rewrite !app_nil_r.
      destruct Hup as [-> | (p & -> & _ & Htoc & Hnone & _)];
        [split; constructor |].
      simpl. rewrite Htoc. split; [apply NoDup_singleton | by repeat constructor].
Qed.

Lemma body_index_inv w fuel env st item h k p :
  uuidMap (bodyState w fuel env st item h) !! k = Some p ->
  uuidMap st !! k = Some p \/ p ∈ progressItems (bodyEvents w fuel env st item h).
Proof.
  rewrite bodyState_index. unfold nextIndex, bodyEvents.
  destruct (classify (uuidMap st) item) as [| |itemType| |]; try by left.
  - destruct (ancestorWalk fuel (uuidMap st) item [] []) as [lists|];
      [| by left].
    intros [[_ <-] | [_ Hp]]%lookup_insert_Some; [right | by left].
    unfold containerEvents.
    destruct (bool_decide (itemType = link_tag)); simpl;
      by apply list_elem_of_singleton.
  - intros [[_ <-] | [_ Hp]]%lookup_insert_Some; [right | by left].
    simpl. by apply list_elem_of_singleton.
Qed.

(** X7.  When the loop returns, the index holds what it held at the start and
    the items of the progress updates, each under the uuid of its entry,
    and nothing else. *)
Theorem run_index_content w fuel env items st h evs st' :
  forLoop w fuel env items st h = (evs, Return st') ->
  Forall (fun p => uuidMap st' !! uuid (toc p) = Some p) (progressItems evs) /\
  (forall k p, uuidMap st' !! k = Some p ->
     uuidMap st !! k = Some p \/ p ∈ progressItems evs).
Proof.
  revert st h evs. induction items as [|item rest IH]; intros st h evs.
  - intros [= <- <-]. split; [constructor | by left].
  - simpl. intros (e1 & s1 & e2 & H1 & H2 & ->)%bind_inv_return.
    pose proof H1 as [-> ->]%loopBody_return.
    pose proof (forLoop_index_mono _ _ _ _ _ _ _ _ H2) as Hsub.
    destruct (IH _ _ _ H2) as [Hnew Hinv].
    rewrite progressItems_app. split.
    + apply Forall_app. split; [| done].
      destruct (body_update w fuel env st item h)
        as [-> | (p & -> & Htoc & _ & Hsome)]; [constructor |].
      constructor; [| constructor]. rewrite Htoc.
      by eapply lookup_weaken.
    + intros k p [Hp | Hp]%Hinv.
      * apply body_index_inv in Hp as [Hp | Hp]; [by left |].
        right. apply elem_of_app. by left.
      * right. apply elem_of_app. by right.
Qed.

Lemma run_index_content_witness :
  Forall (fun p => uuidMap mixedState !! uuid (toc p) = Some p)
         (progressItems (fst mixedLoop)).
Proof.
  apply (run_index_content flaky 5 demoEnv mixedToc (initialState freshBar) []
           (fst mixedLoop) mixedState).
  vm_compute. reflexivity.
Defined.

(** ** Entries that are never disposed of *)

Lemma body_update_typed w fuel env st item h :
  length (progressItems (bodyEvents w fuel env st item h))
  <= if hasStringType item then 1 else 0.
Proof.
  unfold bodyEvents, classify, hasStringType.
  destruct (type item) as [ty|]; [| simpl; lia].
  destruct (uuidMap st !! uuid item); [simpl; lia |].
  destruct (isContainer _ item).
  - destruct (ancestorWalk fuel (uuidMap st) item [] []); [| simpl; lia].
    unfold containerEvents.
    destruct (bool_decide (_ = link_tag)); simpl; lia.
  - destruct (truthy (url item)); simpl; lia.
Qed.

Lemma forLoop_updates_bound w fuel env items st h :
  length (progressItems (fst (forLoop w fuel env items st h)))
  <= countStringTyped items.
Proof.
  revert st h. induction items as [|item rest IH]; intros st h; [simpl; lia |].
  simpl. rewrite bind_fst, progressItems_app, length_app.
  pose proof (progressItems_prefix _ _ (loopBody_prefix w fuel env st item h))
    as [k Hk].
  pose proof (body_update_typed w fuel env st item h) as Hone.
  rewrite Hk, length_app in Hone.
  destruct (snd (loopBody w fuel env st item h)) as [s1| |].
  - specialize (IH s1 (h ++ fst (loopBody w fuel env st item h))). lia.
  - simpl. lia.
  - simpl. lia.
Qed.

Lemma countStringTyped_le (items : list Toc) :
  countStringTyped items <= length items.
Proof.
  induction items as [|item rest IH]; simpl; [lia |].
  destruct (hasStringType item); lia.
Qed.

Lemma countStringTyped_lt (items : list Toc) (item : Toc) :
  item ∈ items -> type item = None -> countStringTyped items < length items.
Proof.
  intros Hin Hty. induction Hin as [item rest | item other rest Hin IH].
  - simpl. unfold hasStringType. rewrite Hty.
    pose proof (countStringTyped_le rest). lia.
  - simpl. specialize (IH Hty). destruct (hasStringType other); lia.
Qed.

Lemma doneLogs_app (evs1 evs2 : list Event) :
  doneLogs (evs1 ++ evs2) = doneLogs evs1 ++ doneLogs evs2.
Proof. apply omap_app. Qed.

Lemma doneLogs_bind {A B} (m : M A) (k : A -> M B) h :
  doneLogs (fst (bind m k h))
  = doneLogs (fst (m h)) ++
    match snd (m h) with
    | Return a => doneLogs (fst (k a (h ++ fst (m h))))
    | _ => []
    end.
Proof. rewrite bind_fst, doneLogs_app. by destruct (snd (m h)). Qed.

Lemma doneLogs_cons (ev : Event) (evs : list Event) :
  doneLogs (ev :: evs)
  = match doneLog ev with
    | Some e => e :: doneLogs evs
    | None => doneLogs evs
    end.
Proof. reflexivity. Qed.

Lemma doneLogs_loop (evs : list Event) :
  Forall loopCall evs -> doneLogs evs = [].
Proof.
  induction 1 as [|ev evs Hev _ IH]; [done |].
  rewrite doneLogs_cons, IH. by destruct ev.
Qed.

Lemma doneLogs_linkReport (st : LoopState) : doneLogs (linkReport st) = [].
Proof.
  unfold linkReport. destruct (Nat.ltb 0 (warnArticleCount st)); [| done].
  rewrite doneLogs_cons. cbn [doneLog].
  induction (warnArticleInfo st) as [|p l IH]; [done |].
  cbn [map]. by rewrite doneLogs_cons.
Qed.

Lemma doneLogs_errorReport (st : LoopState) : doneLogs (errorReport st) = [].
Proof.
  unfold errorReport. destruct (Nat.ltb 0 (errArticleCount st)); [| done].
  rewrite doneLogs_cons. cbn [doneLog]. rewrite doneLogs_app.
  assert (doneLogs (flat_map
            (fun e => [Log (LogErrItem (path (errItem e)) (articleUrl e));
                       Log (LogErrMsg (errMsg e))]) (errArticleInfo st)) = [])
    as ->; [| done].
  induction (errArticleInfo st) as [|e l IH]; [done |].
  cbn [flat_map app]. by rewrite !doneLogs_cons.
Qed.

(** X8.  A first run over a list that holds an entry whose type is not a
    string never logs that the book is done: such an entry is skipped
    without a progress update, so the count stays below the total. *)
Theorem untyped_entry_blocks_completion w fuel options info prefix pb
    id tocs item :
  bookId info = Some id -> id <> 0%N ->
  tocList info = Some tocs ->
  item ∈ tocs -> type item = None ->
  curr pb = 0 ->
  doneLogs (fst (main w fuel options info prefix pb [])) = [].
Proof.
  intros Hid Hnz Htoc Hin Hty Hcurr.
  assert (tocs <> []) as Hne by (intros ->; by inversion Hin).
  pose proof (countStringTyped_lt tocs item Hin Hty) as Hlt.
  rewrite (main_checked _ _ _ _ _ _ id tocs) by done.
  unfold mainAfterChecks.
  rewrite doneLogs_bind. simpl. destruct (w [] _); [done |].
  rewrite doneLogs_bind. simpl. destruct (w _ (ProgressInit _ _)); [done |].
  rewrite Hcurr.
  destruct (Nat.eqb 0 (length tocs)) eqn:Hzero.
  { apply Nat.eqb_eq in Hzero. lia. }
  rewrite doneLogs_bind. unfold settle at 1 2. cbn [fst snd].
  rewrite (doneLogs_loop []) by constructor. rewrite app_nil_l.
  destruct prefix as [p| |]; [| done | done].
  rewrite doneLogs_bind.
  rewrite (doneLogs_loop _ (forLoop_calls _ _ _ _ _ _)). simpl.
  match goal with
  | |- context [forLoop ?w0 ?f0 ?e0 ?l0 ?s0 ?h0] =>
      pose proof (forLoop_updates_bound w0 f0 e0 l0 s0 h0) as Hbound;
      destruct (forLoop w0 f0 e0 l0 s0 h0) as [evs [st| |]] eqn:Hloop
  end; [| done | done].
  cbn [fst snd] in *.
  apply forLoop_accounted in Hloop as (_ & _ & Hc). simpl in Hc.
  rewrite doneLogs_bind. cbn [fst snd emitAll].
  rewrite doneLogs_linkReport. simpl.
  rewrite doneLogs_bind. cbn [fst snd emitAll].
  rewrite doneLogs_errorReport. simpl.
  rewrite doneLogs_bind. simpl.
  destruct (w _ (GenFile _ _ _ _)); [done |].
  rewrite doneLogs_bind. simpl.
  destruct (Nat.eqb (progressCurr st) (length tocs)) eqn:Hdone; [| done].
  apply Nat.eqb_eq in Hdone. lia.
Qed.

Lemma untyped_entry_blocks_completion_witness :
  doneLogs (fst (main quiet 5 demoOptions (demoInfo (untypedEntry :: demoToc))
                   (Return demoPrefix) freshBar [])) = [].
Proof.
  apply (untyped_entry_blocks_completion quiet 5 demoOptions
           (demoInfo (untypedEntry :: demoToc)) (Return demoPrefix) freshBar 7%N
           (untypedEntry :: demoToc) untypedEntry);
    [reflexivity | discriminate | reflexivity | left | reflexivity | reflexivity].
Defined.

(** ** Where the loop writes *)

Lemma ancestorWalk_clean (fuel : nat) (m : UuidMap) :
  forall t titles ids ts us,
    ancestorWalk fuel m t titles ids = Some (ts, us) ->
    Forall illegalFree titles -> Forall illegalFree ts.
Proof.
  induction fuel as [|fuel IH]; intros t titles ids ts us; [done |].
  simpl. destruct (m !! parent_uuid t) as [p|].
  - intros Hw Hclean. eapply IH; [exact Hw |].
    constructor; [apply fixPath_illegalFree | done].
  - intros [= <- <-] Hclean. constructor; [apply fixPath_illegalFree | done].
Qed.

Lemma md_ext_clean : illegalFree md_ext.
Proof. repeat constructor. Qed.

Lemma articleItem_clean (m : UuidMap) (item : Toc) :
  cleanIndex m -> cleanItem (articleItem m item).
Proof.
  intros Hm. unfold cleanItem, articleItem, preItemOf.
  destruct (m !! parent_uuid item) as [parent|] eqn:Hp; simpl.
  - apply Forall_app. split; [exact (Hm _ _ Hp) |].
    constructor; [| constructor].
    apply Forall_app. split; [apply fixPath_illegalFree | apply md_ext_clean].
  - constructor; [| constructor].
    apply Forall_app. split; [apply fixPath_illegalFree | apply md_ext_clean].
Qed.

Lemma bodyState_clean w fuel env st item h :
  cleanIndex (uuidMap st) -> cleanIndex (uuidMap (bodyState w fuel env st item h)).
Proof.
  intros Hm. rewrite bodyState_index. unfold nextIndex.
  destruct (classify (uuidMap st) item); try done.
  - destruct (ancestorWalk fuel (uuidMap st) item [] []) as [[ts us]|] eqn:Hw;
      [| done].
    apply map_Forall_insert_2; [| done].
    unfold cleanItem. simpl. eapply ancestorWalk_clean; [exact Hw | constructor].
  - apply map_Forall_insert_2; [| done]. by apply articleItem_clean.
Qed.

Lemma bodyEvents_clean w fuel env st item h :
  cleanIndex (uuidMap st) ->
  Forall (fun ev => match updatedItem ev with
                    | Some p => cleanItem p
                    | None => True
                    end) (bodyEvents w fuel env st item h).
Proof.
  intros Hm. unfold bodyEvents.
  destruct (classify (uuidMap st) item) as [| |itemType| |]; try constructor.
  - destruct (ancestorWalk fuel (uuidMap st) item [] []) as [[ts us]|] eqn:Hw;
      [| constructor].
    assert (cleanItem (dirItem item (ts, us))) as Hclean
      by (unfold cleanItem; simpl;
          eapply ancestorWalk_clean; [exact Hw | constructor]).
    unfold containerEvents.
    destruct (bool_decide (itemType = link_tag)); simpl; by repeat constructor.
  - done.
  - constructor; [| constructor]. simpl. by apply articleItem_clean.
Qed.

(** X9.  Started from an index whose path segments hold no illegal character
    (the empty index of a first run is one), the loop builds only items
    whose path segments hold none: no segment holds a slash, so the
    slashes of a path are those that [join] puts between segments. *)
Theorem run_segments_clean w fuel env items st h :
  cleanIndex (uuidMap st) ->
  Forall cleanItem (progressItems (fst (forLoop w fuel env items st h))).
Proof.
  intros Hm.
  pose proof (forLoop_calls_Forall (fun s => cleanIndex (uuidMap s))
                (fun ev => match updatedItem ev with
                           | Some p => cleanItem p
                           | None => True
                           end) w fuel env
                (fun s i h' => bodyState_clean w fuel env s i h')
                (fun s i h' => bodyEvents_clean w fuel env s i h')
                items st h Hm) as Hall.
  induction Hall as [|ev evs Hev _ IH]; [constructor |].
  rewrite progressItems_cons. destruct (updatedItem ev); [by constructor | done].
Qed.

Lemma run_segments_clean_witness :
  Forall cleanItem (progressItems (fst mixedLoop)).
Proof.
  apply (run_segments_clean flaky 5 demoEnv mixedToc (initialState freshBar) []).
  apply map_Forall_empty.
Defined.

Lemma bodyEvents_under w fuel env st item h :
  Forall (underBookPath env) (bodyEvents w fuel env st item h).
Proof.
  unfold bodyEvents.
  destruct (classify (uuidMap st) item) as [| |itemType| |].
  - constructor.
  - constructor.
  - destruct (ancestorWalk fuel (uuidMap st) item [] []) as [lists|];
      [| constructor].
    unfold containerEvents.
    destruct (bool_decide (itemType = link_tag)); simpl.
    + by repeat constructor.
    + constructor; [| by repeat constructor].
      exists (join slash (fst lists)). by rewrite <- app_assoc.
  - constructor; [| by repeat constructor].
    split.
    + exists (fst (preItemOf (uuidMap st) item)). simpl. by rewrite <- app_assoc.
    + exists (path (articleItem (uuidMap st) item)). simpl.
      by rewrite <- app_assoc.
  - constructor.
Qed.

(** X10.  As a string, every directory that the loop asks for, and every
    directory and file that it hands to [downloadArticle], starts with
    the path of the book followed by a slash.  That is a matter of the
    string only and does not keep the loop inside the directory of the
    book: [fixPath] leaves a title of two dots as it is, and for an
    entry so titled that is container-like, not a link, and has no
    registered parent, the loop first asks for the directory named by
    the path of the book, a slash and two dots. *)
Theorem run_under_bookPath w fuel env items st h :
  Forall (underBookPath env) (fst (forLoop w fuel env items st h)) /\
  (forall item itemType,
     classify (uuidMap st) item = ContainerLike itemType ->
     itemType <> link_tag ->
     uuidMap st !! parent_uuid item = None ->
     title item = js ".." ->
     0 < fuel ->
     exists rest,
       fst (forLoop w fuel env (item :: items) st h)
       = Mkdir (env_bookPath env ++ js "/..") :: rest).
Proof.
  split.
  - apply (forLoop_calls_Forall (fun _ => True) (underBookPath env) w fuel env);
      [done | | done].
    intros s item h' _. apply bodyEvents_under.
  - intros item itemType Hcl Hne Hparent Htitle Hfuel.
    cbn [forLoop]. rewrite bind_fst. unfold loopBody. rewrite Hcl.
    rewrite (containerBranch_dir _ _ _ _ _ _
               ([fixPath (title item)], [uuid item]));
      [| done | apply ancestorWalk_orphan; [done | lia]].
    rewrite Htitle.
    change (env_bookPath env ++ slash ++
            join slash ([fixPath (js "..")], [uuid item]).1)
      with (env_bookPath env ++ js "/..").
    destruct (w h (Mkdir (env_bookPath env ++ js "/.."))); by eexists.
Qed.

Lemma run_under_bookPath_witness :
  exists rest,
    fst (forLoop quiet 5 demoEnv [dotsEntry] emptyState [])
    = Mkdir (js "download/Demo/..") :: rest.
Proof.
  destruct (run_under_bookPath quiet 5 demoEnv [] emptyState []) as [_ Hdots].
  apply (Hdots dotsEntry title_tag);
    [reflexivity | discriminate | apply lookup_empty | reflexivity | lia].
Defined.

(** ** The replay of an interrupted run *)

Lemma foldl_insert_lookup (l : list IProgressItem) (m : UuidMap) (k : jsstring) :
  foldl (fun m item => <[uuid (toc item) := item]> m) m l !! k
  = match last (filter (fun p => uuid (toc p) = k) l) with
    | Some p => Some p
    | None => m !! k
    end.
Proof.
  revert m. induction l as [|q l IH]; intros m; [done |].
  simpl. rewrite IH. rewrite filter_cons.
  destruct (decide (uuid (toc q) = k)) as [<- | Hne].
  - destruct (filter (fun p => uuid (toc p) = uuid (toc q)) l) as [|r l'] eqn:Hf.
    + simpl. apply lookup_insert_eq.
    + rewrite last_cons_cons.
      destruct (last (r :: l')) eqn:Hlast; [done |].
      by apply last_None in Hlast.
  - destruct (last (filter (fun p => uuid (toc p) = k) l)); [done |].
    by rewrite lookup_insert_ne.
Qed.

(** X11.  When the earlier run was interrupted, the index holds for each uuid
    the last item of [progressInfo] stored for it, and nothing for a
    uuid that no item carries; when it was not, the index is empty
    whatever [progressInfo] holds. *)
Theorem loadIndex_last (pb : ProgressBar) (k : jsstring) :
  loadIndex pb !! k
  = if isDownloadInterrupted pb
    then last (filter (fun p => uuid (toc p) = k) (progressInfo pb))
    else None.
Proof.
  unfold loadIndex. destruct (isDownloadInterrupted pb); [| apply lookup_empty].
  rewrite foldl_insert_lookup, lookup_empty.
  by destruct (last _).
Qed.

(** ** [downloadArticle] *)

Lemma brReplaceFrom_drop (s : jsstring) (n : nat) :
  brReplaceFrom n s = brReplace (drop n s).
Proof.
  revert n. induction s as [|c s IH]; intros n; [by destruct n |].
  destruct n as [|n]; [done |]. simpl. apply IH.
Qed.

Lemma brTagLength_other (c : N) (s : jsstring) :
  c <> 60%N -> brTagLength (c :: s) = None.
Proof.
  intros Hc. assert ((60 =? c)%N = false) as Hne by (apply N.eqb_neq; congruence).
  unfold brTagLength.
  change (js "<br/>") with [60; 98; 114; 47; 62]%N.
  change (js "<br") with [60; 98; 114]%N.
  cbn [startsWith]. rewrite Hne. cbn [andb].
  destruct s as [|x [|y [|z rest]]]; done.
Qed.

Lemma whitespace_not_slash (c : N) : whitespace c = true -> (47 =? c)%N = false.
Proof.
  intros Hw. destruct (47 =? c)%N eqn:Heq; [| done].
  apply N.eqb_eq in Heq. subst c. discriminate Hw.
Qed.

(** X15.  Text without the character [<] passes through the replacement
    unchanged, whatever follows it. *)
Theorem brReplace_text (a b : jsstring) :
  Forall (fun c => c <> 60%N) a -> brReplace (a ++ b) = a ++ brReplace b.
Proof.
  induction 1 as [|c a Hc _ IH]; [done |].
  unfold brReplace in *. simpl app. cbn [brReplaceFrom].
  rewrite brTagLength_other by done. by rewrite IH.
Qed.

Lemma brReplace_text_witness :
  brReplace (js "a b" ++ js "<br />c") = js "a b" ++ brReplace (js "<br />c").
Proof. apply brReplace_text. repeat constructor; discriminate. Defined.

(** X16.  The tag, written with no blank or with one whitespace character
    before the slash, becomes one line feed. *)
Theorem brReplace_tag (blank : option N) (s : jsstring) :
  match blank with Some c => whitespace c = true | None => True end ->
  brReplace (brTag blank ++ s) = 10%N :: brReplace s.
Proof.
  destruct blank as [c|]; intros Hc.
  - change (brTag (Some c) ++ s)
      with (60 :: 98 :: 114 :: c :: 47 :: 62 :: s)%N.
    unfold brReplace at 1. cbn [brReplaceFrom]. unfold brTagLength.
    change (js "<br/>") with [60; 98; 114; 47; 62]%N.
    change (js "<br") with [60; 98; 114]%N.
    change (js "/>") with [47; 62]%N.
    cbn [startsWith]. rewrite (whitespace_not_slash c Hc), Hc, !N.eqb_refl.
    cbn [andb pred brReplaceFrom]. reflexivity.
  - reflexivity.
Qed.

Lemma brReplace_tag_witness :
  brReplace (brTag (Some 32%N) ++ js "x") = 10%N :: brReplace (js "x").
Proof. apply (brReplace_tag (Some 32%N)). reflexivity. Defined.

(** X17.  The replacement of the tags never makes the text longer. *)
Theorem brReplace_length (s : jsstring) : length (brReplace s) <= length s.
Proof.
  unfold brReplace. generalize 0 as n.
  induction s as [|c s IH]; intros n; [simpl; lia |].
  cbn [brReplaceFrom]. destruct n as [|n].
  - destruct (brTagLength (c :: s)) as [len|]; simpl.
    + specialize (IH (pred len)). lia.
    + specialize (IH 0). lia.
  - specialize (IH n). simpl. lia.
Qed.

(** A tag can come out of the replacement: the characters around a tag
    that is replaced can form one with the line feed put in. *)
Example brReplace_leaves_tag :
  brReplace (js "<br<br/>/>") = brTag (Some 10%N) /\
  brReplace (brTag (Some 10%N)) = [10%N].
Proof. split; reflexivity. Qed.

Lemma fetchError_prefix (apiUrl msg : jsstring) :
  articlePrefix `prefix_of` fetchError apiUrl msg.
Proof. by exists (js "Error: " ++ apiUrl ++ js " " ++ msg). Qed.

Lemma imageError_prefix (e : ImgError) : articlePrefix `prefix_of` imageError e.
Proof.
  unfold imageError.
  destruct (img_error e) as [inner|]; [destruct (img_url e) as [[|c u]|] |].
  - by exists (js "image Error: " ++ img_message e).
  - by exists (js "image Error " ++ (c :: u) ++ js ": " ++ inner).
  - by exists (js "image Error: " ++ img_message e).
  - by exists (js "image Error: " ++ img_message e).
Qed.

Lemma writeError_prefix params (msg : jsstring) :
  articlePrefix `prefix_of` writeError params msg.
Proof. by exists (js "Error " ++ dl_articleUrl params ++ js ": " ++ msg). Qed.

Lemma fetchSource_cases (aw : ArticleWorld) (apiUrl : jsstring) :
  (exists src, fetchSource aw apiUrl = Return src /\ src <> []) \/
  (exists msg, fetchSource aw apiUrl = Throw (fetchError apiUrl msg)).
Proof.
  unfold fetchSource. destruct (axiosGet aw apiUrl) as [status body | msg].
  - destruct (status =? 200)%N; [| right; by eexists].
    destruct body as [[[[[[|c src]|]]|]]|]; try (right; by eexists).
    left. by exists (c :: src).
  - right. by eexists.
Qed.

Lemma downloadArticle_cases (aw : ArticleWorld) (params : IDownloadArticleParams) :
  snd (downloadArticle aw params) = Return true \/
  exists msg,
    snd (downloadArticle aw params) = Throw msg /\ articlePrefix `prefix_of` msg.
Proof.
  unfold downloadArticle.
  destruct (fetchSource_cases aw (apiUrlOf params)) as [(src & -> & _) | (msg & ->)].
  - unfold pullImages. destruct (dl_ignoreImg params).
    + cbn [snd]. destruct (writeFile aw _ _) as [msg|]; [| by left].
      right. eexists. split; [done | apply writeError_prefix].
    + destruct (mdImgRun aw _ _ _) as [md | e].
      * cbn [snd]. destruct (writeFile aw _ _) as [msg|]; [| by left].
        right. eexists. split; [done | apply writeError_prefix].
      * right. eexists. split; [done | apply imageError_prefix].
  - right. eexists. split; [done | apply fetchError_prefix].
Qed.

(** X18.  [downloadArticle] resolves to [true] or throws; it never resolves to
    [false], and the message of whatever it throws starts with
    [download article]. *)
Theorem downloadArticle_outcome (aw : ArticleWorld)
    (params : IDownloadArticleParams) :
  snd (downloadArticle aw params) <> Return false /\
  snd (downloadArticle aw params) <> Diverge /\
  forall msg,
    snd (downloadArticle aw params) = Throw msg ->
    js "download article " `prefix_of` msg.
Proof.
  destruct (downloadArticle_cases aw params) as [-> | (msg & -> & Hmsg)].
  - repeat split; done.
  - repeat split; try done. by intros ? [= <-].
Qed.

(** X19.  A request that does not bring a source stops the function after its
    one call.  The message names the url of the api; when the [then]
    has thrown, for a status other than 200 or for a missing source,
    the [catch] wraps its message, so the prefix stands twice. *)
Theorem request_failure (aw : ArticleWorld) (params : IDownloadArticleParams) :
  let url := apiUrlOf params in
  let head := js "download article Error: " ++ url in
  (forall msg,
     axiosGet aw url = Rejected msg ->
     downloadArticle aw params
     = ([AxiosGet url], Throw (head ++ js " " ++ msg))) /\
  (forall status body,
     axiosGet aw url = Resolved status body -> status <> 200%N ->
     downloadArticle aw params
     = ([AxiosGet url],
        Throw (head ++ js " " ++ head ++ js " http status " ++
               numberToString status))) /\
  (forall body,
     axiosGet aw url = Resolved 200%N body -> sourceIn body = None ->
     downloadArticle aw params
     = ([AxiosGet url], Throw (head ++ js " " ++ head))).
Proof.
  intros url head. unfold downloadArticle, fetchSource. fold url.
  split; [| split].
  - intros msg ->. unfold fetchError, head. by rewrite <- !app_assoc.
  - intros status body -> Hne.
    apply N.eqb_neq in Hne. rewrite Hne.
    unfold fetchError, head. by rewrite <- !app_assoc.
  - intros body -> Hnone. rewrite N.eqb_refl.
    destruct body as [[[[[[|c src]|]]|]]|]; try discriminate Hnone;
      unfold fetchError, head; by rewrite <- !app_assoc.
Qed.

Lemma request_failure_witness :
  downloadArticle brokenApi helloParams
  = ([AxiosGet (apiUrlOf helloParams)],
     Throw (js "download article Error: " ++ apiUrlOf helloParams ++ js " " ++
            js "download article Error: " ++ apiUrlOf helloParams ++
            js " http status 404")).
Proof.
  destruct (request_failure brokenApi helloParams) as (_ & Hstatus & _).
  rewrite (Hstatus 404%N None); [| reflexivity | discriminate].
  reflexivity.
Defined.

(** X20.  The progress bar and the spinner are left as they were found: the
    function either touches neither, or pauses the bar, starts the
    spinner, stops the spinner and continues the bar, in this order,
    also when pulling the images fails.  With [ignoreImg] it touches
    neither and makes at most the request and the write. *)
Theorem bar_resumed (aw : ArticleWorld) (params : IDownloadArticleParams) :
  let calls := fst (downloadArticle aw params) in
  (controlCalls calls = [] \/
   controlCalls calls
   = [BarPause; SpinnerStart (spinnerText (dl_articleTitle params));
      SpinnerStop; BarContinue]) /\
  (dl_ignoreImg params = true ->
   calls = [AxiosGet (apiUrlOf params)] \/
   exists page,
     calls = [AxiosGet (apiUrlOf params);
              WriteFile (dl_saveFilePath params) page]).
Proof.
  unfold downloadArticle, pullImages.
  destruct (fetchSource aw (apiUrlOf params)) as [src|msg|];
    [| split; [by left | by left] | split; [by left | by left]].
  destruct (dl_ignoreImg params).
  - split; [by left |]. intros _. right. by eexists.
  - split; [| done]. destruct (mdImgRun aw _ _ _); by right.
Qed.

Lemma bar_resumed_witness :
  fst (downloadArticle goodApi helloParams)
  = [AxiosGet (apiUrlOf helloParams)] \/
  exists page,
    fst (downloadArticle goodApi helloParams)
    = [AxiosGet (apiUrlOf helloParams);
       WriteFile (dl_saveFilePath helloParams) page].
Proof.
  destruct (bar_resumed goodApi helloParams) as [_ Hquiet].
  apply Hquiet. reflexivity.
Defined.

Lemma writeFileCalls_app (evs1 evs2 : list ArticleEvent) :
  writeFileCalls (evs1 ++ evs2) = writeFileCalls evs1 ++ writeFileCalls evs2.
Proof. apply omap_app. Qed.

(** X21.  The function calls [writeFile] at most once, as its last call,
    and it resolves only when that call has resolved.  When the request
    fails the request is its only call: neither [mdImg.run] nor
    [writeFile] is called.  When [mdImg.run] fails, [writeFile] is not
    called and the error of the [catch] is thrown.  What [mdImg.run]
    itself has stored by then is not stated here. *)
Theorem writeFile_called_last (aw : ArticleWorld) (params : IDownloadArticleParams) :
  let done := downloadArticle aw params in
  length (writeFileCalls (fst done)) <= 1 /\
  (snd done = Return true ->
   exists calls mdData,
     fst done = calls ++
               [WriteFile (dl_saveFilePath params) (pageOf params mdData)] /\
     writeFileCalls calls = [] /\
     writeFile aw (dl_saveFilePath params) (pageOf params mdData) = None) /\
  (forall msg,
     fetchSource aw (apiUrlOf params) = Throw msg ->
     fst done = [AxiosGet (apiUrlOf params)]) /\
  (forall src e,
     fetchSource aw (apiUrlOf params) = Return src ->
     dl_ignoreImg params = false ->
     mdImgRun aw src (dl_savePath params) (js "img/" ++ dl_uuid params)
     = ImgFailed e ->
     writeFileCalls (fst done) = [] /\ snd done = Throw (imageError e)).
Proof.
  unfold downloadArticle, pullImages.
  destruct (fetchSource aw (apiUrlOf params)) as [src|msg|].
  - destruct (dl_ignoreImg params).
    + split; [simpl; lia |]. split; [| split; [done | done]].
      cbn [fst snd]. intros Hok.
      exists [AxiosGet (apiUrlOf params)], src.
      split; [done |]. split; [done |].
      by destruct (writeFile aw _ _).
    + destruct (mdImgRun aw src _ _) as [md | e] eqn:Himg.
      * split; [simpl; lia |].
        split; [| split; [done | intros src' e' [= <-] _ Himg'; congruence]].
        cbn [fst snd]. intros Hok.
        eexists (AxiosGet (apiUrlOf params) :: _), md.
        split; [rewrite app_comm_cons; reflexivity |].
        split; [done |]. by destruct (writeFile aw _ _).
      * split; [simpl; lia |]. split; [done |]. split; [done |].
        intros src' e' [= <-] _ Himg'. rewrite Himg' in Himg.
        injection Himg as ->. done.
  - split; [simpl; lia |]. split; [done |]. split; [done | done].
  - split; [simpl; lia |]. split; [done |]. split; [done | done].
Qed.

Lemma writeFile_called_last_witness :
  writeFileCalls (fst (downloadArticle noImages (withImages helloParams))) = [] /\
  snd (downloadArticle noImages (withImages helloParams))
  = Throw (js "download article image Error: timeout").
Proof.
  destruct (writeFile_called_last noImages (withImages helloParams))
    as (_ & _ & _ & Himages).
  apply (Himages (js "Hi<br/>there")
           {| img_message := js "timeout"; img_url := None; img_error := None |});
    reflexivity.
Defined.



(** ** [getKnowledgeBaseInfo] *)

Lemma startsWith_true (t s : jsstring) :
  startsWith t s = true <-> exists b, s = t ++ b.
Proof.
  revert s. induction t as [|a t IH]; intros s; simpl.
  - split; [by exists s | done].
  - destruct s as [|c s]; [split; [done | by intros [b Hb]] |].
    rewrite andb_true_iff, N.eqb_eq, IH. split.
    + intros [-> [b ->]]. by exists b.
    + intros [b [= -> ->]]. split; [done | by exists b].
Qed.

Lemma greedyGroup_sound (s g : jsstring) :
  greedyGroup s = Some g ->
  noTerminator g /\ exists b, s = g ++ closeMark ++ b.
Proof.
  revert g. induction s as [|c s IH]; intros g; [done |].
  cbn [greedyGroup].
  assert ((if startsWith closeMark (c :: s) then Some [] else None) = Some g ->
          noTerminator g /\ exists b, c :: s = g ++ closeMark ++ b) as Hhere.
  { destruct (startsWith closeMark (c :: s)) eqn:Hs; [| done].
    intros [= <-]. split; [constructor |].
    by apply startsWith_true in Hs. }
  destruct (lineTerminator c) eqn:Hc; [exact Hhere |].
  destruct (greedyGroup s) as [g'|]; [| exact Hhere].
  intros [= <-]. destruct (IH g' eq_refl) as [Hg (b & ->)].
  split; [by constructor | by exists b].
Qed.

Lemma greedyGroup_complete (g b : jsstring) :
  noTerminator g ->
  exists g', greedyGroup (g ++ closeMark ++ b) = Some g' /\ length g <= length g'.
Proof.
  induction 1 as [|c g Hc _ (g' & IH & Hlen)].
  - change ([] ++ closeMark ++ b) with (34%N :: js "));" ++ b).
    cbn [greedyGroup].
    assert (startsWith closeMark (34%N :: js "));" ++ b) = true) as ->
      by (apply startsWith_true; by exists b).
    change (lineTerminator 34) with false. cbn iota.
    destruct (greedyGroup (js "));" ++ b)) as [x|]; eexists; split; try done;
      simpl; lia.
  - change ((c :: g) ++ closeMark ++ b) with (c :: (g ++ closeMark ++ b)).
    cbn [greedyGroup]. rewrite Hc, IH.
    exists (c :: g'). split; [done | simpl; lia].
Qed.

Lemma groupAt_sound (s g : jsstring) :
  groupAt s = Some g ->
  g <> [] /\ noTerminator g /\ exists b, s = openMark ++ g ++ closeMark ++ b.
Proof.
  unfold groupAt. destruct (startsWith openMark s) eqn:Hs; [| done].
  apply startsWith_true in Hs as [rest ->].
  rewrite drop_app_length.
  destruct (greedyGroup rest) as [[|c x]|] eqn:Hg; [done | | done].
  intros [= <-]. apply greedyGroup_sound in Hg as [Hx (b & ->)].
  split; [done |]. split; [done | by exists b].
Qed.

Lemma groupAt_complete (g b : jsstring) :
  g <> [] -> noTerminator g ->
  is_Some (groupAt (openMark ++ g ++ closeMark ++ b)).
Proof.
  intros Hne Hg. unfold groupAt.
  assert (startsWith openMark (openMark ++ g ++ closeMark ++ b) = true) as ->
    by (apply startsWith_true; by eexists).
  rewrite drop_app_length.
  destruct (greedyGroup_complete g b Hg) as (g' & -> & Hlen).
  destruct g' as [|c x]; [destruct g; [done | simpl in Hlen; lia] |].
  by eexists.
Qed.

(** X23.  The page yields a payload exactly when it holds, on one line, the
    opening part, at least one character and the closing part; the
    payload returned stands between two such parts in the page, is not
    empty and holds no line terminator. *)
Theorem knowledgeBaseMatch_spec (html : jsstring) :
  (forall g,
     knowledgeBaseMatch html = Some g ->
     g <> [] /\ noTerminator g /\
     exists a b, html = a ++ openMark ++ g ++ closeMark ++ b) /\
  (is_Some (knowledgeBaseMatch html) <->
   exists a g b,
     html = a ++ openMark ++ g ++ closeMark ++ b /\ g <> [] /\ noTerminator g).
Proof.
  assert (forall s g,
            knowledgeBaseMatch s = Some g ->
            g <> [] /\ noTerminator g /\
            exists a b, s = a ++ openMark ++ g ++ closeMark ++ b) as Hsound.
  { intros s. induction s as [|c s IH]; intros g; [done |].
    cbn [knowledgeBaseMatch].
    destruct (groupAt (c :: s)) as [x|] eqn:Hat.
    - intros [= <-]. apply groupAt_sound in Hat as (Hne & Hx & b & Hs).
      split; [done |]. split; [done |]. by exists [], b.
    - intros (Hne & Hg & a & b & ->)%IH.
      split; [done |]. split; [done |]. by exists (c :: a), b. }
  split; [apply Hsound |]. split.
  - intros [g Hg]. destruct (Hsound _ _ Hg) as (Hne & Hterm & a & b & Heq).
    by exists a, g, b.
  - intros (a & g & b & -> & Hne & Hg).
    induction a as [|c a IH].
    + destruct (groupAt_complete g b Hne Hg) as [x Hx].
      change ([] ++ openMark ++ g ++ closeMark ++ b)
        with (openMark ++ g ++ closeMark ++ b).
      destruct (openMark ++ g ++ closeMark ++ b) as [|c s] eqn:Heq;
        [discriminate Heq |].
      cbn [knowledgeBaseMatch]. rewrite Hx. by eexists.
    + change ((c :: a) ++ openMark ++ g ++ closeMark ++ b)
        with (c :: (a ++ openMark ++ g ++ closeMark ++ b)).
      cbn [knowledgeBaseMatch].
      destruct (groupAt (c :: a ++ openMark ++ g ++ closeMark ++ b));
        [by eexists | exact IH].
Qed.

Lemma knowledgeBaseMatch_spec_witness :
  is_Some (knowledgeBaseMatch samplePage).
Proof.
  destruct (knowledgeBaseMatch_spec samplePage) as [_ Hmatch].
  apply Hmatch.
  exists (js "<script>x = JSON.parse("), (js "%7B%7D"), (js "</script>").
  split; [reflexivity |]. split; [discriminate |].
  repeat constructor.
Defined.

(** The payload is as long as it can be: the closing part that ends it
    is the last one of its line. *)
Example knowledgeBaseMatch_greedy :
  knowledgeBaseMatch (openMark ++ js "a" ++ closeMark ++ js "b" ++ closeMark)
  = Some (js "a" ++ closeMark ++ js "b") /\
  knowledgeBaseMatch (openMark ++ js "a" ++ closeMark ++ [10%N] ++ js "b" ++
                      closeMark)
  = Some (js "a").
Proof. split; reflexivity. Qed.

(** Numbers as the language prints them: in full below 10^21, rounded
    to the nearest Number from 2^53 on, and with an exponent from 10^21
    on, whose plus sign the query of the api escapes. *)
Example numberToString_samples :
  numberToString 7%N = js "7" /\
  numberToString (2 ^ 53 + 1)%N = js "9007199254740992" /\
  numberToString 123456789012345678901%N = js "123456789012345680000" /\
  numberToString (10 ^ 21)%N = js "1e+21" /\
  numberToString 1234567890123456789012%N = js "1.2345678901234568e+21" /\
  bookPathOf demoOptions None (10 ^ 21)%N = js "download/1e+21" /\
  queryNumber (numberToString (10 ^ 21)%N) = js "1e%2B21".
Proof. repeat split; vm_compute; reflexivity. Qed.

Lemma mainAfterChecks_first w fuel options info prefix pb id tocs h :
  exists rest,
    fst (mainAfterChecks w fuel options info prefix pb id tocs h)
    = Mkdir (bookPathOf options (bookName info) id) :: rest.
Proof. unfold mainAfterChecks. rewrite bind_fst. simpl. by eexists. Qed.

Lemma bookPathOf_orEmpty options name id :
  bookPathOf options (Some (orEmpty name)) id = bookPathOf options name id.
Proof. by destruct name as [[|c n]|]. Qed.

(** X24.  A run asks nothing of the disk, the progress bar or the console
    unless the request was answered with status 200, the page held a
    payload, the payload decoded to a book, and the book has a non-zero
    id and at least one entry. *)
Theorem run_needs_book get decode w fuel url options prefix pb h :
  fst (mainFromUrl get decode w fuel url options prefix pb h) <> [] ->
  exists html payload book id tocs,
    get url = Resolved 200%N (Some html) /\
    knowledgeBaseMatch html = Some payload /\
    decode payload = Return (Some book) /\
    book_id book = Some id /\ id <> 0%N /\
    book_toc book = Some tocs /\ tocs <> [].
Proof.
  unfold mainFromUrl, getKnowledgeBaseInfo.
  destruct (get url) as [status body|msg];
    [| by intros Hev; exfalso; apply Hev].
  unfold htmlOf. destruct (N.eqb_spec status 200) as [->|Hst];
    [| by intros Hev; exfalso; apply Hev].
  destruct body as [html|]; [| by intros Hev; exfalso; apply Hev].
  change (default [] (Some html)) with html.
  destruct (knowledgeBaseMatch html) as [payload|] eqn:Hmatch;
    [| by intros Hev; exfalso; apply Hev].
  destruct (decode payload) as [[book|]|msg|] eqn:Hdec;
    try by intros Hev; exfalso; apply Hev.
  unfold main. cbn [bookId tocList infoOf].
  destruct (book_id book) as [[|id]|] eqn:Hid;
    try by intros Hev; exfalso; apply Hev.
  destruct (book_toc book) as [[|t tocs]|] eqn:Htoc;
    try by intros Hev; exfalso; apply Hev.
  intros _. by exists html, payload, book, (N.pos id), (t :: tocs).
Qed.

Lemma run_needs_book_witness :
  exists html payload book id tocs,
    serve 200%N samplePage (js "u") = Resolved 200%N (Some html) /\
    knowledgeBaseMatch html = Some payload /\
    decodeTo demoBook payload = Return (Some book) /\
    book_id book = Some id /\ id <> 0%N /\
    book_toc book = Some tocs /\ tocs <> [].
Proof.
  apply (run_needs_book (serve 200%N samplePage) (decodeTo demoBook) quiet 5
           (js "u") demoOptions (Return demoPrefix) freshBar []).
  vm_compute. discriminate.
Defined.

(** X25.  When the answer has another status than 200, or its page holds no
    payload, the run stops at once with the message [No found book id],
    whatever the page says otherwise. *)
Theorem page_without_book get decode w fuel url options prefix pb h
    status body :
  get url = Resolved status body ->
  status <> 200%N \/ knowledgeBaseMatch (default [] body) = None ->
  mainFromUrl get decode w fuel url options prefix pb h
  = ([], Throw (js "No found book id")).
Proof.
  intros Hget Hbad. unfold mainFromUrl, getKnowledgeBaseInfo.
  rewrite Hget.
  assert (knowledgeBaseMatch (htmlOf status body) = None) as ->; [| done].
  unfold htmlOf. destruct (N.eqb_spec status 200) as [->|Hst]; [| done].
  by destruct Hbad.
Qed.

Lemma page_without_book_witness :
  mainFromUrl (serve 404%N samplePage) (decodeTo demoBook) quiet 5 (js "u")
    demoOptions (Return demoPrefix) freshBar []
  = ([], Throw (js "No found book id")).
Proof.
  apply (page_without_book _ _ _ _ _ _ _ _ _ 404%N (Some samplePage));
    [reflexivity | left; discriminate].
Defined.

(** X26.  A book that has an id but no list of entries, or an empty one, stops
    the run with the message [No found toc list] before anything is
    created. *)
Theorem book_without_entries get decode w fuel url options prefix pb h
    html payload book id :
  get url = Resolved 200%N (Some html) ->
  knowledgeBaseMatch html = Some payload ->
  decode payload = Return (Some book) ->
  book_id book = Some id -> id <> 0%N ->
  book_toc book = None \/ book_toc book = Some [] ->
  mainFromUrl get decode w fuel url options prefix pb h
  = ([], Throw (js "No found toc list")).
Proof.
  intros Hget Hmatch Hdec Hid Hnz Htoc.
  unfold mainFromUrl, getKnowledgeBaseInfo.
  rewrite Hget. change (htmlOf 200 (Some html)) with html.
  rewrite Hmatch, Hdec.
  unfold main. cbn [bookId tocList infoOf]. rewrite Hid.
  destruct id as [|id]; [done |].
  by destruct Htoc as [-> | ->].
Qed.

Lemma book_without_entries_witness :
  mainFromUrl (serve 200%N samplePage) (decodeTo bareBook) quiet 5 (js "u")
    demoOptions (Return demoPrefix) freshBar []
  = ([], Throw (js "No found toc list")).
Proof.
  apply (book_without_entries _ _ _ _ _ _ _ _ _ samplePage (js "%7B%7D")
           bareBook 7%N);
    [reflexivity | reflexivity | reflexivity | reflexivity | discriminate
    | left; reflexivity].
Defined.

(** X27.  With a book that has an id and entries, the first thing a run does
    is to create the book's directory under the output directory: named
    after the book, or after its id when the book has no name or an
    empty one. *)
Theorem run_starts_with_book_directory get decode w fuel url options prefix
    pb h html payload book id tocs :
  get url = Resolved 200%N (Some html) ->
  knowledgeBaseMatch html = Some payload ->
  decode payload = Return (Some book) ->
  book_id book = Some id -> id <> 0%N ->
  book_toc book = Some tocs -> tocs <> [] ->
  exists rest,
    fst (mainFromUrl get decode w fuel url options prefix pb h)
    = Mkdir (distDir options ++ slash ++
             match book_name book with
             | Some (c :: n) => fixPath (c :: n)
             | _ => numberToString id
             end) :: rest.
Proof.
  intros Hget Hmatch Hdec Hid Hnz Htoc Hne.
  unfold mainFromUrl, getKnowledgeBaseInfo.
  rewrite Hget. change (htmlOf 200 (Some html)) with html.
  rewrite Hmatch, Hdec.
  rewrite (main_checked _ _ _ _ _ _ id tocs);
    [| done | done | by cbn [tocList infoOf]; rewrite Htoc | done].
  destruct (mainAfterChecks_first w fuel options (infoOf book) prefix pb id
              tocs h) as [rest ->].
  exists rest. cbn [bookName infoOf]. by rewrite bookPathOf_orEmpty.
Qed.

Lemma run_starts_with_book_directory_witness :
  exists rest,
    fst (mainFromUrl (serve 200%N samplePage) (decodeTo demoBook) quiet 5
           (js "u") demoOptions (Return demoPrefix) freshBar [])
    = Mkdir (js "download/7") :: rest.
Proof.
  apply (run_starts_with_book_directory (serve 200%N samplePage)
           (decodeTo demoBook) quiet 5 (js "u") demoOptions (Return demoPrefix)
           freshBar [] samplePage (js "%7B%7D") demoBook 7%N demoToc);
    try reflexivity; discriminate.
Defined.

(** ** What stops a run *)

Lemma stops_ret {A} w (a : A) : stopsAtRejection w (ret a).
Proof. by intros h evs msg. Qed.

Lemma stops_emitAll w evs : stopsAtRejection w (emitAll evs).
Proof. by intros h e msg. Qed.

Lemma stops_diverge {A} w : stopsAtRejection w (@diverge A).
Proof. by intros h evs msg. Qed.

Lemma stops_try_call w ev : stopsAtRejection w (try_call w ev).
Proof. by intros h evs msg. Qed.

Lemma stops_call w ev :
  downloadCall ev = None -> stopsAtRejection w (call w ev).
Proof.
  intros Hev h evs msg. unfold call.
  destruct (w h ev) as [m|] eqn:Hw; [| done].
  intros [= <- <-]. exists [], ev. by rewrite app_nil_r.
Qed.

Lemma stops_bind {A B} w (m : M A) (k : A -> M B) :
  stopsAtRejection w m -> (forall a, stopsAtRejection w (k a)) ->
  stopsAtRejection w (bind m k).
Proof.
  intros Hm Hk h evs msg. unfold bind.
  destruct (m h) as [e1 [a| |]] eqn:Hmh; [| | done].
  - destruct (k a (h ++ e1)) as [e2 r] eqn:Hka. intros [= <- ->].
    destruct (Hk a _ _ _ Hka) as (pre & ev & -> & Hw & Hev).
    exists (e1 ++ pre), ev. rewrite !app_assoc in *. done.
  - intros [= <- <-]. by apply Hm.
Qed.

Lemma stops_loopBody w fuel env st item :
  stopsAtRejection w (loopBody w fuel env st item).
Proof.
  unfold loopBody.
  destruct (classify (uuidMap st) item) as [| |itemType| |];
    try apply stops_ret.
  - unfold containerBranch.
    destruct (ancestorWalk fuel (uuidMap st) item [] []) as [lists|];
      [| apply stops_diverge].
    apply stops_bind.
    + destruct (bool_decide (itemType = link_tag)); [apply stops_ret |].
      apply stops_bind; [by apply stops_call | intros; apply stops_ret].
    + intros st1. unfold updateProgress.
      apply stops_bind; [by apply stops_call | intros; apply stops_ret].
  - unfold articleBranch. apply stops_bind; [apply stops_try_call |].
    intros failure. unfold updateProgress.
    apply stops_bind; [by apply stops_call | intros; apply stops_ret].
Qed.

Lemma stops_forLoop w fuel env items :
  forall st, stopsAtRejection w (forLoop w fuel env items st).
Proof.
  induction items as [|item rest IH]; intros st; [apply stops_ret |].
  simpl. apply stops_bind; [apply stops_loopBody | exact IH].
Qed.

Lemma stops_settle {A} w (r : result A) :
  (forall msg, r <> Throw msg) -> stopsAtRejection w (settle r).
Proof. intros Hr h evs msg [= _ ->]. by destruct (Hr msg). Qed.

Lemma stops_mainAfterChecks w fuel options info prefix pb id tocs :
  (forall msg, prefix <> Throw msg) ->
  stopsAtRejection w (mainAfterChecks w fuel options info prefix pb id tocs).
Proof.
  intros Hprefix. unfold mainAfterChecks.
  apply stops_bind; [by apply stops_call | intros _].
  apply stops_bind; [by apply stops_call | intros _].
  destruct (Nat.eqb (curr pb) (length tocs)).
  - apply stops_bind; [| intros _; apply stops_emitAll].
    destruct (bar pb); [apply stops_emitAll | apply stops_ret].
  - apply stops_bind; [by apply stops_settle | intros p].
    apply stops_bind; [apply stops_forLoop | intros st].
    apply stops_bind; [apply stops_emitAll | intros _].
    apply stops_bind; [apply stops_emitAll | intros _].
    apply stops_bind; [by apply stops_call | intros _].
    apply stops_bind; [apply stops_emitAll | intros _].
    destruct (Nat.eqb (progressCurr st) (length tocs));
      [apply stops_emitAll | apply stops_ret].
Qed.

(** X14.  Once the book has an id and entries, a run throws in two ways
    only.  Either the creation of a directory, the progress bar or the
    writing of the summary rejects: the rejected call is the last one of
    the run, the error is passed on with its message, and the call is
    never the download of an article.  Or the pattern made with the slug
    of the book cannot be built: the run has then made its first two
    calls and no other, both resolved, it has found entries left to do,
    and it throws what [new RegExp] threw. *)
Theorem run_stops_at_rejection w fuel options info prefix pb id tocs h evs msg :
  bookId info = Some id -> id <> 0%N ->
  tocList info = Some tocs -> tocs <> [] ->
  main w fuel options info prefix pb h = (evs, Throw msg) ->
  (exists pre ev,
     evs = pre ++ [ev] /\ w (h ++ pre) ev = Some msg /\
     downloadCall ev = None) \/
  (let bookPath := bookPathOf options (bookName info) id in
   prefix = Throw msg /\
   evs = [Mkdir bookPath; ProgressInit bookPath (length tocs)] /\
   w h (Mkdir bookPath) = None /\
   w (h ++ [Mkdir bookPath]) (ProgressInit bookPath (length tocs)) = None /\
   curr pb <> length tocs).
Proof.
  intros Hid Hnz Htoc Hne.
  rewrite (main_checked _ _ _ _ _ _ id tocs) by done.
  destruct prefix as [p|bad|].
  - intros Hmain. left. revert Hmain. by apply stops_mainAfterChecks.
  - unfold mainAfterChecks, bind at 1, call.
    destruct (w h (Mkdir _)) as [m|] eqn:Hmk.
    { intros [= <- <-]. left. eexists [], _. by rewrite app_nil_r. }
    unfold bind at 1.
    destruct (w (h ++ _) (ProgressInit _ _)) as [m|] eqn:Hinit.
    { intros [= <- <-]. left. eexists [_], _. by split. }
    destruct (Nat.eqb (curr pb) (length tocs)) eqn:Hcurr.
    { destruct (bar pb); intros Hmain; discriminate Hmain. }
    intros [= <- <-]. right. apply Nat.eqb_neq in Hcurr. by repeat split.
  - intros Hmain. left. revert Hmain. by apply stops_mainAfterChecks.
Qed.

Lemma run_stops_at_rejection_witness :
  (exists pre ev,
     [Mkdir (js "download/Demo")] = pre ++ [ev] /\
     fullDisk ([] ++ pre) ev = Some (js "ENOSPC") /\
     downloadCall ev = None) \/
  (let bookPath := bookPathOf demoOptions (bookName (demoInfo demoToc)) 7%N in
   Return demoPrefix = Throw (js "ENOSPC") /\
   [Mkdir (js "download/Demo")]
   = [Mkdir bookPath; ProgressInit bookPath (length demoToc)] /\
   fullDisk [] (Mkdir bookPath) = None /\
   fullDisk ([] ++ [Mkdir bookPath]) (ProgressInit bookPath (length demoToc))
   = None /\
   curr freshBar <> length demoToc).
Proof.
  apply (run_stops_at_rejection fullDisk 5 demoOptions (demoInfo demoToc)
           (Return demoPrefix) freshBar 7%N demoToc []);
    [reflexivity | discriminate | reflexivity | discriminate | reflexivity].
Defined.

(** A slug that is not the source of a pattern stops the run after
    [init()], with no call rejected. *)
Example run_stops_at_bad_slug :
  main quiet 5 demoOptions (demoInfo demoToc)
    (Throw (js "Invalid regular expression")) freshBar []
  = ([Mkdir (js "download/Demo"); ProgressInit (js "download/Demo") 2],
     Throw (js "Invalid regular expression")).
Proof. reflexivity. Qed.

(** ** Samples for the loop *)

Lemma forLoop_terminates_witness :
  snd (forLoop quiet 50 demoEnv demoToc emptyState []) <> Diverge.
Proof.
  apply (forLoop_terminates uuidRank quiet 50 demoEnv demoToc).
  - repeat constructor; simpl; lia.
  - change (uuidMap emptyState) with (∅ : UuidMap).
    intros k p Hk. by rewrite lookup_empty in Hk.
  - change (uuidMap emptyState) with (∅ : UuidMap).
    intros k p Hk. by rewrite lookup_empty in Hk.
Defined.

Lemma disposed_entry_skipped_witness :
  loopBody flaky 5 demoEnv failedState helloEntry []
  = ([], Return failedState).
Proof.
  eapply (disposed_entry_skipped flaky 5 demoEnv emptyState helloEntry []
            _ failedState [] [] [] failedState).
  - right. reflexivity.
  - reflexivity.
  - reflexivity.
Defined.
